(** * Hybrid logical clock, range descriptors, read-timestamp cache and store

    A shallow embedding of the node-local core of the key-value store:
    - [Int64]  : Go's [int64] arithmetic, as [Z] with explicit wrap-around;
    - [hlc]    : package [hlc] (the hybrid logical clock);
    - [engine] : the byte-string keys of package [engine];
    - [config] : [RangeDescriptor] and its containment predicates;
    - [rtcache]: the read-timestamp cache;
    - [store]  : the store (bootstrap, range creation and lookup, dispatch). *)

From Stdlib Require Import ZArith Lia Bool List String Ascii Sorted.
From stdpp Require Import gmap strings list fin_maps.

Local Open Scope Z_scope.

(** ** Go's int64 *)

Module Int64.

Definition min_int : Z := - 2 ^ 63.
Definition max_int : Z := 2 ^ 63 - 1.

Definition in_range (z : Z) : Prop := min_int <= z <= max_int.

(** Two's complement reduction of a mathematical integer to 64 bits. *)
Definition wrap (z : Z) : Z := (z + 2 ^ 63) mod 2 ^ 64 - 2 ^ 63.

Definition add (a b : Z) : Z := wrap (a + b).
Definition sub (a b : Z) : Z := wrap (a - b).

Lemma wrap_small (z : Z) : in_range z -> wrap z = z.
Proof.
  unfold in_range, min_int, max_int, wrap. intros Hz.
  rewrite Z.mod_small; lia.
Qed.

Lemma wrap_in_range (z : Z) : in_range (wrap z).
Proof.
  unfold in_range, min_int, max_int, wrap.
  pose proof (Z.mod_pos_bound (z + 2 ^ 63) (2 ^ 64)). lia.
Qed.

Lemma add_small (a b : Z) : in_range (a + b) -> add a b = a + b.
Proof. apply wrap_small. Qed.

Lemma sub_small (a b : Z) : in_range (a - b) -> sub a b = a - b.
Proof. apply wrap_small. Qed.

Lemma succ_small (a : Z) : min_int <= a < max_int -> add a 1 = a + 1.
Proof.
  intros Ha. apply add_small. unfold in_range, min_int, max_int in *. lia.
Qed.

Lemma succ_max : add max_int 1 = min_int.
Proof. reflexivity. Qed.

End Int64.

(** ** Package hlc *)

Module hlc.

(** [type Timestamp struct { WallTime int64; Logical int64 }] *)
Record Timestamp : Type := mkTimestamp { WallTime : Z; Logical : Z }.

Definition MaxTimestamp : Timestamp := mkTimestamp Int64.max_int Int64.max_int.
Definition MinTimestamp : Timestamp := mkTimestamp 0 0.

(** [func (t Timestamp) Less(s Timestamp) bool] *)
Definition Less (t s : Timestamp) : bool :=
  (WallTime t <? WallTime s)
  || ((WallTime t =? WallTime s) && (Logical t <? Logical s)).

(** [func (t Timestamp) Equal(s Timestamp) bool] *)
Definition Equal (t s : Timestamp) : bool :=
  (WallTime t =? WallTime s) && (Logical t =? Logical s).

(** [type Clock struct]: the mutable [state] and [maxDrift] (a
    [time.Duration], i.e. an int64 count of nanoseconds).  The field
    [physicalClock func() int64] reads the environment; every operation
    that calls it takes the value read, [pt], as an argument. *)
Record Clock : Type := mkClock { state : Timestamp; maxDrift : Z }.

(** [NewClock]: wall time and logical time start at zero, as does the
    maximal drift. *)
Definition NewClock : Clock := mkClock (mkTimestamp 0 0) 0.

Definition SetMaxDrift (delta : Z) (c : Clock) : Clock :=
  mkClock (state c) delta.

Definition MaxDrift (c : Clock) : Z := maxDrift c.

(** [func (c *Clock) timestamp() Timestamp] *)
Definition timestamp (c : Clock) : Timestamp :=
  mkTimestamp (WallTime (state c)) (Logical (state c)).

(** [func (c *Clock) Timestamp() Timestamp] (the lock is not modelled). *)
Definition Timestamp_ (c : Clock) : Timestamp := timestamp c.

Definition set_state (c : Clock) (w l : Z) : Clock :=
  mkClock (mkTimestamp w l) (maxDrift c).

(** [func (c *Clock) Now() (result Timestamp)]: the deferred assignment
    makes the result the state after the update. *)
Definition Now (pt : Z) (c : Clock) : Timestamp * Clock :=
  let c' :=
    if WallTime (state c) >=? pt
    then set_state c (WallTime (state c)) (Int64.add (Logical (state c)) 1)
    else set_state c pt 0 in
  (timestamp c', c').

(** The value built by [util.Errorf] in [Update], kept as its two
    arguments: the remote wall time and how far ahead it is. *)
Inductive error : Type := DriftError (wall ahead : Z).

(** [func (c *Clock) Update(rt Timestamp) (result Timestamp, err error)].
    [result] is always the state on return, also on the error path. *)
Definition Update (pt : Z) (rt : Timestamp) (c : Clock)
  : Timestamp * option error * Clock :=
  if (pt >? WallTime (state c)) && (pt >? WallTime rt) then
    let c' := set_state c pt 0 in (timestamp c', None, c')
  else if WallTime rt >? WallTime (state c) then
    if (maxDrift c >? 0) && (Int64.sub (WallTime rt) pt >? maxDrift c) then
      (timestamp c,
       Some (DriftError (WallTime rt) (Int64.sub (WallTime rt) pt)), c)
    else
      let c' := set_state c (WallTime rt) (Int64.add (Logical rt) 1) in
      (timestamp c', None, c')
  else if WallTime (state c) >? WallTime rt then
    let c' := set_state c (WallTime (state c))
                (Int64.add (Logical (state c)) 1) in
    (timestamp c', None, c')
  else
    let l := if Logical rt >? Logical (state c)
             then Logical rt else Logical (state c) in
    let c' := set_state c (WallTime (state c)) (Int64.add l 1) in
    (timestamp c', None, c').

(** A run of [Now] calls; [pts] lists what the physical clock returns at
    each call. *)
Fixpoint NowSeq (pts : list Z) (c : Clock) : list Timestamp :=
  match pts with
  | [] => []
  | pt :: rest => let '(t, c') := Now pt c in t :: NowSeq rest c'
  end.

Definition ts_lt (t s : Timestamp) : Prop := Less t s = true.

(** *** The order on timestamps *)

Lemma Less_spec (t s : Timestamp) :
  Less t s = true <->
  WallTime t < WallTime s \/ (WallTime t = WallTime s /\ Logical t < Logical s).
Proof. unfold Less. lia. Qed.

Lemma Less_irrefl (t : Timestamp) : Less t t = false.
Proof. unfold Less. lia. Qed.

Lemma Less_trans (t s u : Timestamp) : ts_lt t s -> ts_lt s u -> ts_lt t u.
Proof. unfold ts_lt. rewrite !Less_spec. lia. Qed.

Lemma timestamp_state (c : Clock) : timestamp c = state c.
Proof. destruct c as [[w l] d]. reflexivity. Qed.

(** *** Now *)

Lemma Now_result_is_state (pt : Z) (c : Clock) :
  fst (Now pt c) = state (snd (Now pt c)).
Proof. unfold Now. cbn [fst snd]. apply timestamp_state. Qed.

(** One call of [Now] moves the state strictly forward unless the
    logical counter sits at the largest int64. *)
Lemma Now_step (pt : Z) (c : Clock) :
  Int64.min_int <= Logical (state c) < Int64.max_int ->
  ts_lt (state c) (fst (Now pt c)) /\
  Int64.min_int <= Logical (fst (Now pt c)) <= Z.max 0 (Logical (state c)) + 1.
Proof.
  intros HL. unfold ts_lt, Now. cbn [fst].
  destruct (Z.geb_spec (WallTime (state c)) pt) as [Hge | Hlt];
    cbn; rewrite ?Int64.succ_small by exact HL;
    rewrite Less_spec; cbn; unfold Int64.min_int in *; lia.
Qed.

(** Every timestamp of a run lies above the state the run starts from. *)
Lemma NowSeq_above (pts : list Z) : forall c : Clock,
  Int64.min_int <= Logical (state c) ->
  Z.max 0 (Logical (state c)) + Z.of_nat (length pts) <= Int64.max_int ->
  Forall (ts_lt (state c)) (NowSeq pts c).
Proof.
  induction pts as [| pt rest IH]; intros c Hlo Hhi; cbn [NowSeq].
  - constructor.
  - destruct (Now pt c) as [t c'] eqn:E.
    assert (Hrange : Int64.min_int <= Logical (state c) < Int64.max_int)
      by (cbn [length] in Hhi; lia).
    destruct (Now_step pt c Hrange) as [Hlt [Hlo' Hhi']].
    pose proof (Now_result_is_state pt c) as Hst.
    rewrite E in Hlt, Hlo', Hhi', Hst. cbn [fst snd] in *.
    constructor; [exact Hlt|].
    assert (Hrest : Forall (ts_lt (state c')) (NowSeq rest c')).
    { apply IH; rewrite <- Hst; [lia|]. cbn [length] in Hhi. lia. }
    revert Hrest. apply List.Forall_impl.
    intros u Hu. apply (Less_trans _ (state c')); [|exact Hu].
    rewrite <- Hst. exact Hlt.
Qed.

Lemma NowSeq_increasing (pts : list Z) : forall c : Clock,
  Int64.min_int <= Logical (state c) ->
  Z.max 0 (Logical (state c)) + Z.of_nat (length pts) <= Int64.max_int ->
  StronglySorted ts_lt (NowSeq pts c).
Proof.
  induction pts as [| pt rest IH]; intros c Hlo Hhi; cbn [NowSeq].
  - constructor.
  - destruct (Now pt c) as [t c'] eqn:E.
    assert (Hrange : Int64.min_int <= Logical (state c) < Int64.max_int)
      by (cbn [length] in Hhi; lia).
    destruct (Now_step pt c Hrange) as [_ [Hlo' Hhi']].
    pose proof (Now_result_is_state pt c) as Hst.
    rewrite E in Hlo', Hhi', Hst. cbn [fst snd] in *.
    assert (Hlo2 : Int64.min_int <= Logical (state c'))
      by (rewrite <- Hst; lia).
    assert (Hhi2 : Z.max 0 (Logical (state c')) + Z.of_nat (length rest)
                   <= Int64.max_int)
      by (rewrite <- Hst; cbn [length] in Hhi; lia).
    constructor; [apply IH; assumption|].
    rewrite Hst. apply NowSeq_above; assumption.
Qed.

(** *** Update *)

(** Whatever branch is taken, the result of [Update] is the state the
    clock is left in. *)
Lemma Update_result_is_state (pt : Z) (rt : Timestamp) (c : Clock) :
  fst (fst (Update pt rt c)) = state (snd (Update pt rt c)).
Proof.
  unfold Update.
  repeat match goal with
         | |- context [if ?b then _ else _] => destruct b
         end; cbn [fst snd]; apply timestamp_state.
Qed.

(** The wall time after a successful [Update] is the largest of the
    three wall times involved. *)
Lemma Update_wall (pt : Z) (rt : Timestamp) (c : Clock) :
  snd (fst (Update pt rt c)) = None ->
  WallTime (state (snd (Update pt rt c)))
  = Z.max pt (Z.max (WallTime (state c)) (WallTime rt)).
Proof.
  unfold Update.
  destruct (Z.gtb_spec pt (WallTime (state c)));
    destruct (Z.gtb_spec pt (WallTime rt)); cbn [andb];
    try (cbn; lia);
    (destruct (Z.gtb_spec (WallTime rt) (WallTime (state c)));
     [ destruct ((maxDrift c >? 0)
                 && (Int64.sub (WallTime rt) pt >? maxDrift c));
       cbn; [discriminate | lia]
     | destruct (Z.gtb_spec (WallTime (state c)) (WallTime rt)); cbn; lia ]).
Qed.

(** *** The drift check of Update *)

(** C1, as stated, fails when the subtraction in the drift check
    overflows: with the physical clock at -1 and the remote wall time at
    the largest int64, the remote is more than [maxDrift] ahead, yet
    [rt.WallTime-physicalClock] wraps to a negative number, no error is
    returned and the clock adopts the remote time. *)
Lemma Update_drift_overflow_accepted :
  let c := mkClock (mkTimestamp 0 0) 250000000 in
  let rt := MaxTimestamp in
  let pt := -1 in
  (maxDrift c > 0 /\ WallTime rt > WallTime (state c)
   /\ WallTime rt - pt > maxDrift c)
  /\ snd (fst (Update pt rt c)) = None
  /\ state (snd (Update pt rt c)) = mkTimestamp Int64.max_int Int64.min_int
  /\ state (snd (Update pt rt c)) <> state c.
Proof. vm_compute. repeat split; congruence. Qed.

(** C1, amended: with [maxDrift > 0], a remote wall time above the stored
    one and more than [maxDrift] ahead of the physical time, where that
    difference fits in an int64, [Update] returns the drift error, its
    result is the stored state and the clock is left as it was. *)
Theorem Update_drift_rejected (c : Clock) (rt : Timestamp) (pt : Z) :
  maxDrift c > 0 ->
  WallTime rt > WallTime (state c) ->
  WallTime rt - pt > maxDrift c ->
  WallTime rt - pt <= Int64.max_int ->
  Update pt rt c
  = (state c, Some (DriftError (WallTime rt) (WallTime rt - pt)), c).
Proof.
  intros Hd Hrt Hahead Hfit. unfold Update.
  assert (Hsub : Int64.sub (WallTime rt) pt = WallTime rt - pt).
  { apply Int64.sub_small.
    unfold Int64.in_range, Int64.min_int, Int64.max_int in *. lia. }
  rewrite Hsub.
  destruct (Z.gtb_spec pt (WallTime rt)) as [Hpt | _]; [lia|].
  rewrite andb_false_r.
  destruct (Z.gtb_spec (WallTime rt) (WallTime (state c))) as [_ | Hn]; [|lia].
  destruct (Z.gtb_spec (maxDrift c) 0) as [_ | Hn]; [|lia].
  destruct (Z.gtb_spec (WallTime rt - pt) (maxDrift c)) as [_ | Hn]; [|lia].
  cbn [andb]. rewrite timestamp_state. reflexivity.
Qed.

Lemma Update_drift_rejected_witness :
  let c := mkClock (mkTimestamp 1 0) 250000000 in
  let rt := mkTimestamp 250000002 0 in
  Update 1 rt c = (state c, Some (DriftError 250000002 250000001), c).
Proof.
  apply (Update_drift_rejected
           (mkClock (mkTimestamp 1 0) 250000000) (mkTimestamp 250000002 0) 1);
    cbn; unfold Int64.max_int; lia.
Defined.

(** *** Successive calls of Now *)

(** C2, as stated, fails once the logical counter reaches the largest
    int64.  The clock below is a fresh clock after one [Update]; its
    second [Now] wraps the counter around, so the second timestamp is
    not above the first. *)
Lemma Now_logical_wraps :
  let c := snd (Update 0 (mkTimestamp 5 (Int64.max_int - 2)) NewClock) in
  Sorted Z.le [0; 0]
  /\ NowSeq [0; 0] c = [mkTimestamp 5 Int64.max_int; mkTimestamp 5 Int64.min_int]
  /\ Less (mkTimestamp 5 Int64.max_int) (mkTimestamp 5 Int64.min_int) = false
  /\ ~ StronglySorted ts_lt (NowSeq [0; 0] c).
Proof.
  cbv zeta. split; [repeat constructor; lia|].
  split; [vm_compute; reflexivity|].
  split; [vm_compute; reflexivity|].
  intros H. apply StronglySorted_inv in H as [_ H].
  apply Forall_inv in H. vm_compute in H. discriminate.
Qed.

(** C2, amended: for a run of [Now] calls over non-decreasing physical
    readings, during which the logical counter cannot pass the largest
    int64 (the larger of 0 and the counter, plus the number of calls,
    stays within it), the timestamps returned are strictly increasing
    in the order [Less]. *)
Theorem Now_strictly_increasing (c : Clock) (pts : list Z) :
  Sorted Z.le pts ->
  Int64.min_int <= Logical (state c) ->
  Z.max 0 (Logical (state c)) + Z.of_nat (length pts) <= Int64.max_int ->
  StronglySorted ts_lt (NowSeq pts c).
Proof. intros _. apply NowSeq_increasing. Qed.

Lemma Now_strictly_increasing_witness :
  StronglySorted ts_lt (NowSeq [0; 0; 7; 7] NewClock).
Proof.
  apply (Now_strictly_increasing NewClock [0; 0; 7; 7]).
  - repeat constructor; lia.
  - cbn. unfold Int64.min_int. lia.
  - cbn. unfold Int64.max_int. lia.
Defined.

(** *** The result of Update *)

(** C9, as stated, fails at the largest timestamp: a fresh clock that is
    passed [MaxTimestamp] returns no error and a result whose logical
    part has wrapped around, which is below the remote timestamp. *)
Lemma Update_MaxTimestamp_wraps :
  snd (fst (Update 0 MaxTimestamp NewClock)) = None
  /\ fst (fst (Update 0 MaxTimestamp NewClock))
     = mkTimestamp Int64.max_int Int64.min_int
  /\ Less MaxTimestamp (fst (fst (Update 0 MaxTimestamp NewClock))) = false.
Proof. vm_compute. repeat split. Qed.

(** C9, amended: when neither the remote nor the stored logical counter
    is at the largest int64, the result of an [Update] that returns no
    error is strictly above both the remote timestamp and the state the
    clock had before the call. *)
Theorem Update_result_above (c : Clock) (rt : Timestamp) (pt : Z) :
  Int64.min_int <= Logical rt < Int64.max_int ->
  Int64.min_int <= Logical (state c) < Int64.max_int ->
  snd (fst (Update pt rt c)) = None ->
  ts_lt rt (fst (fst (Update pt rt c)))
  /\ ts_lt (state c) (fst (fst (Update pt rt c))).
Proof.
  intros Hr Hs. unfold ts_lt, Update.
  destruct (Z.gtb_spec pt (WallTime (state c)));
    destruct (Z.gtb_spec pt (WallTime rt)); cbn [andb];
    try (intros _; cbn; rewrite !Less_spec; cbn; lia);
    (destruct (Z.gtb_spec (WallTime rt) (WallTime (state c)));
     [ destruct ((maxDrift c >? 0)
                 && (Int64.sub (WallTime rt) pt >? maxDrift c));
       cbn; [discriminate |]
     | destruct (Z.gtb_spec (WallTime (state c)) (WallTime rt)); cbn;
       [| destruct (Z.gtb_spec (Logical rt) (Logical (state c)))] ]);
    intros _; rewrite Int64.succ_small by assumption;
    rewrite !Less_spec; cbn; lia.
Qed.

Lemma Update_result_above_witness :
  let c := mkClock (mkTimestamp 10 3) 0 in
  let rt := mkTimestamp 10 8 in
  fst (fst (Update 4 rt c)) = mkTimestamp 10 9
  /\ ts_lt rt (fst (fst (Update 4 rt c)))
  /\ ts_lt (state c) (fst (fst (Update 4 rt c))).
Proof.
  split; [reflexivity|].
  apply (Update_result_above (mkClock (mkTimestamp 10 3) 0) (mkTimestamp 10 8) 4);
    cbn; unfold Int64.min_int, Int64.max_int; try lia; reflexivity.
Defined.

End hlc.

(** ** Keys of package engine *)

Module engine.

(** [type Key []byte]: a byte string; a [string] is a list of bytes. *)
Abbreviation Key := string (only parsing).

(** Modelled from the spec: [engine.Key.Less] is not among the sources;
    the spec gives keys "a total lexicographic order" on byte strings,
    which is what Go's [bytes.Compare(k, l) < 0] computes. *)
Fixpoint Less (k l : Key) : bool :=
  match k, l with
  | _, EmptyString => false
  | EmptyString, String _ _ => true
  | String a k', String b l' =>
      (N_of_ascii a <? N_of_ascii b)%N
      || ((N_of_ascii a =? N_of_ascii b)%N && Less k' l')
  end.

(** Modelled from the spec: the "sentinel minimum and maximum key" that
    bound the key space ([engine.KeyMin], [engine.KeyMax]). *)
Definition KeyMin : Key := EmptyString.
Definition KeyMax : Key :=
  String (ascii_of_N 255) (String (ascii_of_N 255) EmptyString).

(** The lexicographic order, as a relation: a proper prefix comes first,
    otherwise the first differing byte decides. *)
Inductive key_lt : Key -> Key -> Prop :=
| key_lt_prefix (b : ascii) (l : Key) : key_lt EmptyString (String b l)
| key_lt_head (a b : ascii) (k l : Key) :
    (N_of_ascii a < N_of_ascii b)%N -> key_lt (String a k) (String b l)
| key_lt_tail (a : ascii) (k l : Key) :
    key_lt k l -> key_lt (String a k) (String a l).

Definition key_le (k l : Key) : Prop := key_lt k l \/ k = l.

Lemma N_of_ascii_inj (a b : ascii) : N_of_ascii a = N_of_ascii b -> a = b.
Proof.
  intros H. rewrite <- (ascii_N_embedding a), <- (ascii_N_embedding b).
  now rewrite H.
Qed.

Lemma Less_key_lt (k : Key) : forall l : Key, Less k l = true <-> key_lt k l.
Proof.
  induction k as [| a k IH]; intros [| b l]; cbn [Less].
  - split; [discriminate | inversion 1].
  - split; [constructor | reflexivity].
  - split; [discriminate | inversion 1].
  - rewrite orb_true_iff, andb_true_iff, N.ltb_lt, N.eqb_eq, IH. split.
    + intros [Hlt | [Heq Hkl]].
      * now apply key_lt_head.
      * apply N_of_ascii_inj in Heq. subst b. now apply key_lt_tail.
    + inversion 1; subst; [now left | right; split; [reflexivity | assumption]].
Qed.

Lemma key_Less_irrefl (k : Key) : Less k k = false.
Proof.
  induction k as [| a k IH]; cbn [Less]; [reflexivity|].
  rewrite IH, andb_false_r, orb_false_r. apply N.ltb_irrefl.
Qed.

Lemma key_Less_asym (k : Key) : forall l : Key, Less k l = true -> Less l k = false.
Proof.
  induction k as [| a k IH]; intros [| b l]; cbn [Less]; try easy.
  rewrite orb_true_iff, andb_true_iff, N.ltb_lt, N.eqb_eq.
  intros [Hlt | [Heq Hkl]].
  - apply orb_false_iff. split; [apply N.ltb_ge; lia|].
    apply andb_false_iff. left. apply N.eqb_neq. lia.
  - apply orb_false_iff. split; [apply N.ltb_ge; lia|].
    rewrite (IH l Hkl). apply andb_false_r.
Qed.

Lemma key_Less_connex (k : Key) :
  forall l : Key, Less k l = false -> Less l k = false -> k = l.
Proof.
  induction k as [| a k IH]; intros [| b l]; cbn [Less]; try easy.
  rewrite !orb_false_iff, !andb_false_iff, !N.ltb_ge, !N.eqb_neq.
  intros [H1 H2] [H3 H4].
  assert (Hab : N_of_ascii a = N_of_ascii b) by lia.
  apply N_of_ascii_inj in Hab. subst b.
  destruct H2 as [H2 | H2]; [congruence|].
  destruct H4 as [H4 | H4]; [congruence|].
  now rewrite (IH l H2 H4).
Qed.

(** [!k.Less(l)] says that [l] is at most [k]. *)
Lemma not_Less_key_le (k l : Key) : Less k l = false <-> key_le l k.
Proof.
  split.
  - intros Hkl. destruct (Less l k) eqn:Hlk.
    + left. now apply Less_key_lt.
    + right. symmetry. now apply key_Less_connex.
  - intros [Hlt | ->]; [|apply key_Less_irrefl].
    apply key_Less_asym. now apply Less_key_lt.
Qed.

End engine.

(** ** storage/config.go: range descriptors *)

Module config.
Import engine.

(** [type Replica struct]; [engine.Attributes] is a list of strings. *)
Record Replica : Type := mkReplica {
  NodeID : Z;
  StoreID : Z;
  RangeID : Z;
  Attrs : list string
}.

(** [type RangeDescriptor struct] *)
Record RangeDescriptor : Type := mkRangeDescriptor {
  StartKey : Key;
  EndKey : Key;
  Replicas : list Replica
}.

(** [func (r *RangeDescriptor) ContainsKey(key engine.Key) bool] *)
Definition ContainsKey (r : RangeDescriptor) (key : Key) : bool :=
  negb (Less key (StartKey r)) && Less key (EndKey r).

(** [func (r *RangeDescriptor) ContainsKeyRange(start, end engine.Key) bool].
    [None] stands for the panic raised when the end key is below the
    start key. *)
Definition ContainsKeyRange (r : RangeDescriptor) (start end_ : Key)
  : option bool :=
  let end_ := if (String.length end_ =? 0)%nat then start else end_ in
  if Less end_ start then None
  else Some (negb (Less start (StartKey r)) && negb (Less (EndKey r) end_)).

(** C6: for a descriptor with [StartKey < EndKey], [ContainsKey] holds
    exactly of the keys with [StartKey <= k < EndKey]; [ContainsKeyRange]
    on a non-empty end key that is not below the start key returns, and
    returns true exactly when [StartKey <= s] and [e <= EndKey]; and the
    four results listed for the descriptor from "a" to "z". *)
Theorem Contains_spec (r : RangeDescriptor) (k s e : Key) :
  key_lt (StartKey r) (EndKey r) ->
  (ContainsKey r k = true <-> key_le (StartKey r) k /\ key_lt k (EndKey r))
  /\ (e <> EmptyString -> key_le s e ->
      ContainsKeyRange r s e <> None
      /\ (ContainsKeyRange r s e = Some true
          <-> key_le (StartKey r) s /\ key_le e (EndKey r)))
  /\ (let az := mkRangeDescriptor "a"%string "z"%string [] in
      ContainsKey az "a"%string = true
      /\ ContainsKey az "z"%string = false
      /\ ContainsKeyRange az "m"%string "n"%string = Some true
      /\ ContainsKeyRange az "0"%string "a"%string = Some false).
Proof.
  intros _. split; [|split].
  - unfold ContainsKey.
    rewrite andb_true_iff, negb_true_iff, not_Less_key_le, Less_key_lt.
    reflexivity.
  - intros Hne Hse. unfold ContainsKeyRange.
    destruct e as [| b e]; [congruence|]. cbn [String.length Nat.eqb].
    apply not_Less_key_le in Hse. rewrite Hse. split; [discriminate|].
    split.
    + intros H. injection H as H.
      apply andb_true_iff in H as [H1 H2].
      rewrite negb_true_iff, not_Less_key_le in H1, H2. now split.
    + intros [H1 H2]. f_equal. apply andb_true_iff.
      rewrite !negb_true_iff, !not_Less_key_le. now split.
  - vm_compute. repeat split.
Qed.

Lemma Contains_spec_witness :
  let r := mkRangeDescriptor "b"%string "k"%string [] in
  (ContainsKey r "c"%string = true
   <-> key_le "b"%string "c"%string /\ key_lt "c"%string "k"%string)
  /\ ContainsKeyRange r "c"%string "d"%string <> None.
Proof.
  pose proof (Contains_spec (mkRangeDescriptor "b"%string "k"%string [])
                "c"%string "c"%string "d"%string) as H.
  cbn [StartKey EndKey] in H.
  destruct H as [H1 [H2 _]].
  - apply key_lt_head. vm_compute. reflexivity.
  - split; [exact H1|].
    apply H2; [discriminate|].
    left. apply key_lt_head. vm_compute. reflexivity.
Defined.

(** C10: for a key [k] with [StartKey <= k <= EndKey], [ContainsKeyRange]
    with an empty end key returns true, the empty end having been
    replaced by [k]; so it returns true at [EndKey], where [ContainsKey]
    returns false. *)
Theorem ContainsKeyRange_empty_end (r : RangeDescriptor) (k : Key) :
  key_le (StartKey r) k -> key_le k (EndKey r) ->
  ContainsKeyRange r k EmptyString = Some true
  /\ (k = EndKey r ->
      ContainsKeyRange r (EndKey r) EmptyString = Some true
      /\ ContainsKey r (EndKey r) = false).
Proof.
  intros Hs He.
  assert (Hk : ContainsKeyRange r k EmptyString = Some true).
  { unfold ContainsKeyRange. cbn [String.length Nat.eqb].
    rewrite key_Less_irrefl.
    apply not_Less_key_le in Hs, He. now rewrite Hs, He. }
  split; [exact Hk|].
  intros ->. split; [exact Hk|].
  unfold ContainsKey. rewrite key_Less_irrefl. apply andb_false_r.
Qed.

Lemma ContainsKeyRange_empty_end_witness :
  let az := mkRangeDescriptor "a"%string "z"%string [] in
  ContainsKeyRange az "z"%string EmptyString = Some true
  /\ ContainsKey az "z"%string = false.
Proof.
  destruct (ContainsKeyRange_empty_end
              (mkRangeDescriptor "a"%string "z"%string []) "z"%string)
    as [_ H].
  - left. apply key_lt_head. vm_compute. reflexivity.
  - right. reflexivity.
  - apply H. reflexivity.
Defined.

End config.

(** ** The read-timestamp cache *)

Module rtcache.
Import engine hlc.

(** *** Timestamps as a total order *)

Definition ts_le (a b : Timestamp) : Prop := Less b a = false.

(** The larger of two timestamps. *)
Definition ts_max (a b : Timestamp) : Timestamp := if Less a b then b else a.

(** The largest of [floor] and the timestamps of [l]. *)
Definition max_from (floor : Timestamp) (l : list Timestamp) : Timestamp :=
  fold_left ts_max l floor.

Lemma Less_false_spec (a b : Timestamp) :
  Less a b = false <->
  WallTime b < WallTime a \/ (WallTime b = WallTime a /\ Logical b <= Logical a).
Proof. unfold Less. lia. Qed.

Lemma ts_le_refl (a : Timestamp) : ts_le a a.
Proof. apply hlc.Less_irrefl. Qed.

Lemma ts_le_trans (a b c : Timestamp) : ts_le a b -> ts_le b c -> ts_le a c.
Proof. unfold ts_le. rewrite !Less_false_spec. lia. Qed.

Lemma ts_le_antisym (a b : Timestamp) : ts_le a b -> ts_le b a -> a = b.
Proof.
  unfold ts_le. rewrite !Less_false_spec. destruct a as [wa la], b as [wb lb].
  cbn. intros H1 H2. f_equal; lia.
Qed.

Lemma ts_lt_le (a b : Timestamp) : ts_lt a b -> ts_le a b.
Proof. unfold ts_lt, ts_le. rewrite Less_spec, Less_false_spec. lia. Qed.

Lemma ts_max_cases (a b : Timestamp) :
  (ts_max a b = a /\ ts_le b a) \/ (ts_max a b = b /\ ts_lt a b).
Proof.
  unfold ts_max, ts_le, ts_lt. destruct (Less a b); [right | left]; split; reflexivity.
Qed.

Lemma ts_max_ge_l (a b : Timestamp) : ts_le a (ts_max a b).
Proof.
  destruct (ts_max_cases a b) as [[-> _] | [-> H]];
    [apply ts_le_refl | now apply ts_lt_le].
Qed.

Lemma ts_max_ge_r (a b : Timestamp) : ts_le b (ts_max a b).
Proof.
  destruct (ts_max_cases a b) as [[-> H] | [-> _]];
    [exact H | apply ts_le_refl].
Qed.

Lemma max_from_app (f : Timestamp) (l1 l2 : list Timestamp) :
  max_from f (l1 ++ l2) = max_from (max_from f l1) l2.
Proof. apply fold_left_app. Qed.

Lemma max_from_ge_floor (l : list Timestamp) :
  forall f : Timestamp, ts_le f (max_from f l).
Proof.
  induction l as [| t l IH]; intros f; cbn.
  - apply ts_le_refl.
  - eapply ts_le_trans; [apply (ts_max_ge_l f t) | apply IH].
Qed.

Lemma max_from_ge_all (l : list Timestamp) :
  forall (f t : Timestamp), In t l -> ts_le t (max_from f l).
Proof.
  induction l as [| u l IH]; intros f t Hin; cbn; [destruct Hin|].
  destruct Hin as [-> | Hin].
  - eapply ts_le_trans; [apply (ts_max_ge_r f t) | apply max_from_ge_floor].
  - now apply IH.
Qed.

Lemma max_from_cons (f u : Timestamp) (l : list Timestamp) :
  max_from f (u :: l) = max_from (ts_max f u) l.
Proof. reflexivity. Qed.

Lemma max_from_attained (l : list Timestamp) :
  forall f : Timestamp, max_from f l = f \/ In (max_from f l) l.
Proof.
  induction l as [| u l IH]; intros f; [now left|].
  rewrite max_from_cons.
  destruct (IH (ts_max f u)) as [E | Hin]; [|now right; right].
  rewrite E. destruct (ts_max_cases f u) as [[-> _] | [-> _]];
    [now left | now right; left].
Qed.

(** [max_from f l] is the only upper bound of [f] and [l] that is one of
    them. *)
Lemma max_from_unique (f m : Timestamp) (l : list Timestamp) :
  ts_le f m -> (forall t, In t l -> ts_le t m) -> (m = f \/ In m l) ->
  m = max_from f l.
Proof.
  intros Hf Hl Hm. apply ts_le_antisym.
  - destruct Hm as [-> | Hin];
      [apply max_from_ge_floor | now apply max_from_ge_all].
  - destruct (max_from_attained l f) as [-> | Hin]; [exact Hf | now apply Hl].
Qed.

Lemma max_from_same_elements (f : Timestamp) (l l' : list Timestamp) :
  (forall t, In t l <-> In t l') -> max_from f l = max_from f l'.
Proof.
  intros H. apply max_from_unique.
  - apply max_from_ge_floor.
  - intros t Ht. apply max_from_ge_all. now apply H.
  - destruct (max_from_attained l f) as [E | Hin]; [now left | right; now apply H].
Qed.

Lemma max_from_split (f : Timestamp) (p : Timestamp -> bool) (l : list Timestamp) :
  max_from (max_from f (List.filter p l))
           (List.filter (fun t => negb (p t)) l)
  = max_from f l.
Proof.
  rewrite <- max_from_app. apply max_from_same_elements.
  intros t. rewrite in_app_iff, !filter_In. destruct (p t); cbn; intuition congruence.
Qed.

Lemma max_from_split_map {A : Type} (g : A -> Timestamp) (p : A -> bool)
      (f : Timestamp) (l : list A) :
  max_from (max_from f (map g (List.filter p l)))
           (map g (List.filter (fun x => negb (p x)) l))
  = max_from f (map g l).
Proof.
  rewrite <- max_from_app, <- map_app. apply max_from_same_elements.
  intros t. rewrite !in_map_iff. split; intros [x [Hx Hin]]; exists x; split; trivial.
  - apply in_app_iff in Hin as [Hin | Hin]; now apply filter_In in Hin.
  - apply in_app_iff. rewrite !filter_In. destruct (p x); cbn; intuition congruence.
Qed.

(** *** The cache *)

(** Modelled from the spec: a cache entry, "an interval [startKey, endKey)
    associated with the highest Timestamp seen for a read touching that
    interval"; an empty end key stands for the single key [startKey].
    The implementation of the cache is not among the sources, only its
    tests are. *)
Record CacheEntry : Type := mkEntry {
  startKey : Key;
  endKey : Key;
  readTS : Timestamp
}.

(** Modelled from the spec: the cache holds its entries, layered and never
    merged, and the high-water mark, "the floor for any key not explicitly
    present". *)
Record ReadTimestampCache : Type := mkCache {
  highWater : Timestamp;
  cache : list CacheEntry
}.

Definition is_empty (k : Key) : bool := (String.length k =? 0)%nat.

(** Modelled from the spec: whether key [k] lies in the interval given by
    [s] and [e], which is end-exclusive, or is the single key [s] when
    [e] is empty. *)
Definition covers (s e k : Key) : bool :=
  if is_empty e then String.eqb k s
  else negb (engine.Less k s) && engine.Less k e.

(** Modelled from the spec: whether two such intervals overlap. *)
Definition overlaps (s1 e1 s2 e2 : Key) : bool :=
  if is_empty e1 then covers s2 e2 s1
  else if is_empty e2 then covers s1 e1 s2
  else engine.Less s1 e2 && engine.Less s2 e1.

Definition touches (s e : Key) (en : CacheEntry) : bool :=
  overlaps (startKey en) (endKey en) s e.

(** The timestamps of the stored entries that overlap the queried
    interval. *)
Definition overlapping (s e : Key) (rtc : ReadTimestampCache) : list Timestamp :=
  map readTS (List.filter (touches s e) (cache rtc)).

(** Modelled from the spec: [GetMax(start, end)].  The spec wants the
    maximum over the overlapping entries, the high-water mark when there
    is none, and a result that is never below the high-water mark; the
    test TestReadTimestampCache reads the high-water mark for a key whose
    only entry is older than it.  So the scan starts from the high-water
    mark. *)
Definition GetMax (s e : Key) (rtc : ReadTimestampCache) : Timestamp :=
  max_from (highWater rtc) (overlapping s e rtc).

(** [ts.WallTime += d], in int64. *)
Definition add_drift (ts : Timestamp) (d : Z) : Timestamp :=
  mkTimestamp (Int64.add (WallTime ts) d) (Logical ts).

(** Modelled from the spec: [Clear()] "discards all entries; recomputes
    the high-water mark as clock.Timestamp() + maxDrift".  The cache keeps
    a reference to the clock; here the clock is an argument. *)
Definition Clear (clock : Clock) (rtc : ReadTimestampCache) : ReadTimestampCache :=
  mkCache (add_drift (Timestamp_ clock) (MaxDrift clock)) [].

(** Modelled from the spec: [NewReadTimestampCache(clock)]; the high-water
    mark is "initialized to now + maxDrift at cache creation". *)
Definition NewReadTimestampCache (clock : Clock) : ReadTimestampCache :=
  Clear clock (mkCache MinTimestamp []).

Section Eviction.

(** The constant [minCacheWindow], in nanoseconds; its value is not in the
    sources. *)
Variable minCacheWindow : Z.

(** Modelled from the spec: an entry is old enough to be folded when its
    age, seen from the timestamp [now], has reached [minCacheWindow].  In
    TestReadTimestampCacheEviction the entry for "a" is exactly
    [minCacheWindow] older than the read of "b" and is folded by it. *)
Definition expired (now : Timestamp) (en : CacheEntry) : bool :=
  minCacheWindow <=? Int64.sub (WallTime now) (WallTime (readTS en)).

(** The entries an eviction at [now] folds away. *)
Definition folded (now : Timestamp) (rtc : ReadTimestampCache) : list CacheEntry :=
  List.filter (expired now) (cache rtc).

(** Modelled from the spec: eviction; old entries are "folded into the
    high-water mark (raising it to the folded entry's timestamp if higher)
    and removed". *)
Definition evict (now : Timestamp) (rtc : ReadTimestampCache) : ReadTimestampCache :=
  mkCache (max_from (highWater rtc) (map readTS (folded now rtc)))
          (List.filter (fun en => negb (expired now en)) (cache rtc)).

(** Modelled from the spec: [Add(start, end, ts)] records the read, keeps
    the entries it overlaps, and evicts what has become old relative to
    the read just recorded. *)
Definition Add (s e : Key) (ts : Timestamp) (rtc : ReadTimestampCache)
  : ReadTimestampCache :=
  evict ts (mkCache (highWater rtc) (cache rtc ++ [mkEntry s e ts])).

(** Histories of a cache: reads recorded and evictions run. *)
Inductive op : Type :=
| OpAdd (s e : Key) (ts : Timestamp)
| OpEvict (now : Timestamp).

Definition apply_op (o : op) (rtc : ReadTimestampCache) : ReadTimestampCache :=
  match o with
  | OpAdd s e ts => Add s e ts rtc
  | OpEvict now => evict now rtc
  end.

(** The entries that [o] folds away when applied to [rtc]. *)
Definition folded_by (o : op) (rtc : ReadTimestampCache) : list CacheEntry :=
  match o with
  | OpAdd s e ts => folded ts (mkCache (highWater rtc) (cache rtc ++ [mkEntry s e ts]))
  | OpEvict now => folded now rtc
  end.

(** The cache after a history, and every entry folded away on the way. *)
Fixpoint run (ops : list op) (rtc : ReadTimestampCache)
  : ReadTimestampCache * list CacheEntry :=
  match ops with
  | [] => (rtc, [])
  | o :: rest =>
      let '(rtc', gone) := run rest (apply_op o rtc) in
      (rtc', folded_by o rtc ++ gone)
  end.

End Eviction.

(** *** The tests of the cache, run on the model *)

Definition maxClockSkew : Z := 250000000.

(** TestReadTimestampCache, with a window of ten seconds. *)
Example TestReadTimestampCache_model :
  let w := 10000000000 in
  let clock := SetMaxDrift maxClockSkew NewClock in
  let rtc0 := NewReadTimestampCache clock in
  let '(t0, clock1) := Now 0 clock in
  let rtc1 := Add w "a" "" t0 rtc0 in
  let '(ts, _) := Now (maxClockSkew + 1) clock1 in
  let rtc2 := Add w "b" "c" ts rtc1 in
  WallTime (GetMax "a" "" rtc1) = maxClockSkew
  /\ WallTime (GetMax "notincache" "" rtc1) = maxClockSkew
  /\ GetMax "b" "" rtc2 = ts
  /\ GetMax "bb" "" rtc2 = ts
  /\ WallTime (GetMax "c" "" rtc2) = maxClockSkew
  /\ GetMax "b" "c" rtc2 = ts
  /\ GetMax "bb" "bz" rtc2 = ts
  /\ WallTime (GetMax "a" "b" rtc2) = maxClockSkew
  /\ GetMax "a" "bb" rtc2 = ts
  /\ GetMax "a" "d" rtc2 = ts
  /\ GetMax "bz" "c" rtc2 = ts
  /\ GetMax "bz" "d" rtc2 = ts
  /\ WallTime (GetMax "c" "d" rtc2) = maxClockSkew.
Proof. vm_compute. repeat split. Qed.

(** TestReadTimestampCacheEviction, for a window of ten seconds. *)
Example TestReadTimestampCacheEviction_model :
  let w := 10000000000 in
  let clock := SetMaxDrift maxClockSkew NewClock in
  let rtc0 := NewReadTimestampCache clock in
  let '(aTS, clock1) := Now (maxClockSkew + 1) clock in
  let rtc1 := Add w "a" "" aTS rtc0 in
  let '(bTS, _) := Now (maxClockSkew + 1 + w) clock1 in
  let rtc2 := Add w "b" "" bTS rtc1 in
  GetMax "c" "" rtc2 = aTS.
Proof. vm_compute. reflexivity. Qed.

(** TestReadTimestampCacheLayeredIntervals. *)
Example TestReadTimestampCacheLayeredIntervals_model :
  let w := 10000000000 in
  let clock := SetMaxDrift maxClockSkew NewClock in
  let rtc0 := NewReadTimestampCache clock in
  let '(adTS, clock1) := Now (maxClockSkew + 1) clock in
  let rtc1 := Add w "a" "d" adTS rtc0 in
  let '(beTS, clock2) := Now (maxClockSkew + 1) clock1 in
  let rtc2 := Add w "b" "e" beTS rtc1 in
  let '(cTS, _) := Now (maxClockSkew + 1) clock2 in
  let rtc := Add w "c" "" cTS rtc2 in
  GetMax "a" "" rtc = adTS
  /\ GetMax "b" "" rtc = beTS
  /\ GetMax "c" "" rtc = cTS
  /\ GetMax "d" "" rtc = beTS
  /\ GetMax "a" "b" rtc = adTS
  /\ GetMax "a" "c" rtc = beTS
  /\ GetMax "a" "d" rtc = cTS
  /\ GetMax "b" "d" rtc = cTS
  /\ GetMax "c" "d" rtc = cTS
  /\ GetMax "c0" "d" rtc = beTS.
Proof. vm_compute. repeat split. Qed.

(** TestReadTimestampCacheClear. *)
Example TestReadTimestampCacheClear_model :
  let w := 10000000000 in
  let clock := SetMaxDrift maxClockSkew NewClock in
  let rtc0 := NewReadTimestampCache clock in
  let '(ts, clock1) := Now (maxClockSkew + 1) clock in
  let rtc1 := Add w "a" "" ts rtc0 in
  let rtc2 := Clear clock1 rtc1 in
  let expTS := add_drift (Timestamp_ clock1) maxClockSkew in
  GetMax "a" "" rtc2 = expTS.
Proof. vm_compute. reflexivity. Qed.

(** *** GetMax *)

Lemma GetMax_ge_highWater (s e : Key) (rtc : ReadTimestampCache) :
  ts_le (highWater rtc) (GetMax s e rtc).
Proof. apply max_from_ge_floor. Qed.

Lemma GetMax_none (s e : Key) (rtc : ReadTimestampCache) :
  (forall en, In en (cache rtc) -> touches s e en = false) ->
  GetMax s e rtc = highWater rtc.
Proof.
  intros Hnone. unfold GetMax, overlapping.
  replace (List.filter (touches s e) (cache rtc)) with (@nil CacheEntry);
    [reflexivity|].
  symmetry. induction (cache rtc) as [| en l IH]; [reflexivity|].
  cbn [List.filter]. rewrite (Hnone en) by now left.
  apply IH. intros en' Hin. apply Hnone. now right.
Qed.

Lemma filter_all {A : Type} (p : A -> bool) (l : list A) :
  (forall x, In x l -> p x = true) -> List.filter p l = l.
Proof.
  induction l as [| x l IH]; intros H; [reflexivity|].
  cbn [List.filter]. rewrite (H x) by now left.
  f_equal. apply IH. intros y Hy. apply H. now right.
Qed.

(** Eviction does not change what [GetMax] answers for an interval that
    every stored entry overlaps: what is folded away is kept in the
    high-water mark. *)
Lemma GetMax_evict_all_touch (w : Z) (now : Timestamp) (s e : Key)
      (rtc : ReadTimestampCache) :
  (forall en, In en (cache rtc) -> touches s e en = true) ->
  GetMax s e (evict w now rtc) = GetMax s e rtc.
Proof.
  intros Hall. unfold GetMax, overlapping, evict, folded. cbn [highWater cache].
  rewrite (filter_all (touches s e) (cache rtc)) by exact Hall.
  rewrite (filter_all (touches s e) (List.filter _ (cache rtc))).
  - apply max_from_split_map.
  - intros en Hin. apply filter_In in Hin as [Hin _]. now apply Hall.
Qed.

Lemma GetMax_Add_all_touch (w : Z) (s e s' e' : Key) (ts : Timestamp)
      (rtc : ReadTimestampCache) :
  (forall en, In en (cache rtc) -> touches s e en = true) ->
  touches s e (mkEntry s' e' ts) = true ->
  GetMax s e (Add w s' e' ts rtc) = ts_max (GetMax s e rtc) ts
  /\ (forall en, In en (cache (Add w s' e' ts rtc)) -> touches s e en = true).
Proof.
  intros Hall Hnew.
  assert (Hall' : forall en, In en (cache rtc ++ [mkEntry s' e' ts]) ->
                             touches s e en = true).
  { intros en Hin. apply in_app_iff in Hin as [Hin | [<- | []]]; auto. }
  split.
  - unfold Add. rewrite GetMax_evict_all_touch by exact Hall'.
    unfold GetMax, overlapping. cbn [highWater cache].
    rewrite filter_all by exact Hall'.
    rewrite (filter_all (touches s e) (cache rtc)) by exact Hall.
    rewrite map_app, max_from_app. reflexivity.
  - unfold Add, evict. cbn [cache]. intros en Hin.
    apply filter_In in Hin as [Hin _]. now apply Hall'.
Qed.

Lemma ts_max_absorb (a b : Timestamp) : ts_le a b -> ts_max a b = b.
Proof.
  intros H. destruct (ts_max_cases a b) as [[E H'] | [E _]]; [|exact E].
  rewrite E. now apply ts_le_antisym.
Qed.

(** C3, as stated, fails when an overlapping entry is older than the
    high-water mark.  This is the first step of TestReadTimestampCache:
    the read of "a" at (0, 1) is the only entry that overlaps "a", yet
    [GetMax] answers the high-water mark, 250ms. *)
Lemma GetMax_entry_below_highWater :
  let clock := SetMaxDrift maxClockSkew NewClock in
  let t0 := fst (Now 0 clock) in
  let rtc := Add 10000000000 "a" "" t0 (NewReadTimestampCache clock) in
  t0 = mkTimestamp 0 1
  /\ overlapping "a" "" rtc = [t0]
  /\ GetMax "a" "" rtc = mkTimestamp 250000000 0
  /\ GetMax "a" "" rtc <> t0.
Proof. vm_compute. repeat split. congruence. Qed.

(** C3, amended: [GetMax] returns the largest of the high-water mark and
    the timestamps of the stored entries that overlap the queried
    interval: it is at least the high-water mark and each such timestamp,
    it is one of them, and it is the high-water mark when no entry
    overlaps.  For the layered reads of ["a","d") at [t1], ["b","e") at
    [t2] and "c" at [t3], with [t1 < t2 < t3] and a high-water mark not
    above [t3], the answer on ["a","d") is [t3]. *)
Theorem GetMax_spec (minCacheWindow : Z) (rtc : ReadTimestampCache) (s e : Key) :
  ts_le (highWater rtc) (GetMax s e rtc)
  /\ (forall en, In en (cache rtc) -> touches s e en = true ->
                 ts_le (readTS en) (GetMax s e rtc))
  /\ (GetMax s e rtc = highWater rtc
      \/ exists en, In en (cache rtc) /\ touches s e en = true
                    /\ readTS en = GetMax s e rtc)
  /\ ((forall en, In en (cache rtc) -> touches s e en = false) ->
      GetMax s e rtc = highWater rtc)
  /\ (forall hw t1 t2 t3 : Timestamp,
        ts_lt t1 t2 -> ts_lt t2 t3 -> ts_le hw t3 ->
        GetMax "a" "d"
          (Add minCacheWindow "c" "" t3
             (Add minCacheWindow "b" "e" t2
                (Add minCacheWindow "a" "d" t1 (mkCache hw []))))
        = t3).
Proof.
  split; [apply GetMax_ge_highWater|].
  split.
  { intros en Hin Ht. apply max_from_ge_all. unfold overlapping.
    apply in_map. apply filter_In. now split. }
  split.
  { destruct (max_from_attained (overlapping s e rtc) (highWater rtc))
      as [E | Hin]; [now left | right].
    unfold overlapping in Hin. apply in_map_iff in Hin as [en [Hts Hin]].
    apply filter_In in Hin as [Hin Ht]. exists en. auto. }
  split; [apply GetMax_none|].
  intros hw t1 t2 t3 H12 H23 Hhw.
  destruct (GetMax_Add_all_touch minCacheWindow "a" "d" "a" "d" t1 (mkCache hw []))
    as [E1 A1]; [intros en [] | reflexivity |].
  destruct (GetMax_Add_all_touch minCacheWindow "a" "d" "b" "e" t2 _ A1)
    as [E2 A2]; [reflexivity|].
  destruct (GetMax_Add_all_touch minCacheWindow "a" "d" "c" "" t3 _ A2)
    as [E3 _]; [reflexivity|].
  rewrite E3, E2, E1. change (GetMax "a" "d" (mkCache hw [])) with hw.
  apply ts_max_absorb.
  pose proof (ts_lt_le _ _ H23) as L23.
  pose proof (ts_le_trans _ _ _ (ts_lt_le _ _ H12) L23) as L13.
  destruct (ts_max_cases hw t1) as [[-> _] | [-> _]];
    [destruct (ts_max_cases hw t2) as [[-> _] | [-> _]]
    | destruct (ts_max_cases t1 t2) as [[-> _] | [-> _]]]; assumption.
Qed.

Lemma GetMax_spec_witness :
  let t1 := mkTimestamp 250000001 0 in
  let t2 := mkTimestamp 250000001 1 in
  let t3 := mkTimestamp 250000001 2 in
  let hw := mkTimestamp 250000000 0 in
  GetMax "a" "d"
    (Add 10000000000 "c" "" t3
       (Add 10000000000 "b" "e" t2
          (Add 10000000000 "a" "d" t1 (mkCache hw []))))
  = t3.
Proof.
  apply (GetMax_spec 10000000000 (mkCache (mkTimestamp 250000000 0) [])
           "a"%string "d"%string); reflexivity.
Defined.

(** *** Clear *)

(** C7: after [Clear()] no entry is left and [GetMax], on any key or
    interval, returns [clock.Timestamp()] with [maxDrift] added to its wall
    time, as read from the clock when the cache was cleared. *)
Theorem GetMax_after_Clear (clock : Clock) (rtc : ReadTimestampCache) (s e : Key) :
  cache (Clear clock rtc) = []
  /\ GetMax s e (Clear clock rtc)
     = mkTimestamp (Int64.add (WallTime (Timestamp_ clock)) (MaxDrift clock))
                   (Logical (Timestamp_ clock)).
Proof. split; reflexivity. Qed.

(** *** Eviction *)

Lemma evict_highWater_mono (w : Z) (now : Timestamp) (rtc : ReadTimestampCache) :
  ts_le (highWater rtc) (highWater (evict w now rtc)).
Proof. unfold evict. cbn [highWater]. apply max_from_ge_floor. Qed.

Lemma apply_op_highWater (w : Z) (o : op) (rtc : ReadTimestampCache) :
  highWater (apply_op w o rtc)
  = max_from (highWater rtc) (map readTS (folded_by w o rtc)).
Proof. destruct o; reflexivity. Qed.

(** Along any history the high-water mark is the largest of the mark the
    history started from and the timestamps folded away since. *)
Lemma run_highWater (w : Z) (ops : list op) : forall rtc : ReadTimestampCache,
  highWater (fst (run w ops rtc))
  = max_from (highWater rtc) (map readTS (snd (run w ops rtc))).
Proof.
  induction ops as [| o rest IH]; intros rtc; cbn [run]; [reflexivity|].
  specialize (IH (apply_op w o rtc)).
  destruct (run w rest (apply_op w o rtc)) as [rtc' gone]. cbn [fst snd] in *.
  rewrite IH, apply_op_highWater, map_app, max_from_app. reflexivity.
Qed.

(** C8: an eviction never lowers the high-water mark; after any history
    of reads and evictions that starts at a construction or a clear, the
    high-water mark is the largest of the floor then taken from the clock
    and the timestamps of all entries folded away since; and [GetMax] on
    a key or interval that no surviving entry overlaps returns it. *)
Theorem eviction_highWater (minCacheWindow : Z) (clock : Clock)
        (old : ReadTimestampCache) (ops : list op) :
  let rtc0 := Clear clock old in
  let rtc := fst (run minCacheWindow ops rtc0) in
  let gone := snd (run minCacheWindow ops rtc0) in
  (forall (now : Timestamp) (r : ReadTimestampCache),
      ts_le (highWater r) (highWater (evict minCacheWindow now r)))
  /\ ts_le (highWater rtc0) (highWater rtc)
  /\ highWater rtc = max_from (highWater rtc0) (map readTS gone)
  /\ (forall s e : Key,
        (forall en, In en (cache rtc) -> touches s e en = false) ->
        GetMax s e rtc = max_from (highWater rtc0) (map readTS gone)).
Proof.
  cbv zeta.
  pose proof (run_highWater minCacheWindow ops (Clear clock old)) as Hrun.
  split; [intros now r; apply evict_highWater_mono|].
  split; [rewrite Hrun; apply max_from_ge_floor|].
  split; [exact Hrun|].
  intros s e Hnone. rewrite <- Hrun. now apply GetMax_none.
Qed.

Lemma eviction_highWater_witness :
  let w := 10000000000 in
  let clock := SetMaxDrift maxClockSkew NewClock in
  let aTS := mkTimestamp 250000001 0 in
  let bTS := mkTimestamp 10250000001 0 in
  let ops := [OpAdd "a" "" aTS; OpAdd "b" "" bTS] in
  let rtc := fst (run w ops (Clear clock (mkCache MinTimestamp []))) in
  snd (run w ops (Clear clock (mkCache MinTimestamp []))) = [mkEntry "a" "" aTS]
  /\ GetMax "c" "" rtc = aTS.
Proof.
  split; [reflexivity|].
  destruct (eviction_highWater 10000000000 (SetMaxDrift maxClockSkew NewClock)
              (mkCache MinTimestamp [])
              [OpAdd "a" "" (mkTimestamp 250000001 0);
               OpAdd "b" "" (mkTimestamp 10250000001 0)])
    as [_ [_ [_ H]]].
  rewrite (H "c"%string ""%string).
  - reflexivity.
  - intros en [<- | []]. reflexivity.
Defined.

End rtcache.

(** ** The store *)

Module store.
Import engine hlc config rtcache.

(** Modelled from the spec: [StoreIdent], "ClusterID, NodeID, StoreID;
    written once to the engine at bootstrap time".  The store itself is
    not among the sources, only its tests are. *)
Record StoreIdent : Type := mkStoreIdent {
  ClusterID : string;
  identNodeID : Z;
  identStoreID : Z
}.

(** Modelled from the spec: [RangeMetadata], "ClusterID, RangeID plus the
    embedded RangeDescriptor". *)
Record RangeMetadata : Type := mkRangeMetadata {
  metaClusterID : string;
  metaRangeID : Z;
  desc : RangeDescriptor
}.

(** What the engine holds under a key: one of the two records the store
    persists, or the bytes written by a command.  The encoding of the
    records into bytes is left out. *)
Inductive Value : Type :=
| VIdent (i : StoreIdent)
| VMeta (m : RangeMetadata)
| VBytes (b : string).

(** Modelled from the spec: the "fixed well-known key" of the store
    ident. *)
Definition KeyLocalIdent : Key :=
  String zero (String zero (String zero "store-ident")).

(** Modelled from the spec: the metadata key of a range, "derived from
    that range's EndKey" ([engine.RangeMetaKey]). *)
Definition RangeMetaKey (k : Key) : Key :=
  String zero (String zero (String.append "meta" k)).

(** [RangeDescriptor.LookupKey], from storage/config.go. *)
Definition LookupKey (r : RangeDescriptor) : Key := RangeMetaKey (EndKey r).

(** Modelled from the spec: the store owns the engine, the clock, the
    read-timestamp cache, the ident once bootstrapped, and the resident
    ranges ordered by start key.  Clock and engine are shared objects: a
    second store made on them is given their current values. *)
Record Store : Type := mkStore {
  clock : Clock;
  eng : gmap string Value;
  ident : option StoreIdent;
  ranges : list RangeMetadata;
  readTSCache : ReadTimestampCache;
  closed : bool
}.

Inductive StoreError : Type :=
| ErrNotBootstrapped
| ErrEngineNotEmpty
| ErrInvalidDescriptor
| ErrRangeNotFound (id : Z)
| ErrKeyOutOfRange
| ErrClock (e : hlc.error)
| ErrClosed
| Panic.

Inductive result (A : Type) : Type :=
| Ok (a : A)
| Err (e : StoreError).
Arguments Ok {A} a.
Arguments Err {A} e.

Definition NewStore (c : Clock) (e : gmap string Value) : Store :=
  mkStore c e None [] (NewReadTimestampCache c) false.

(** Ranges are ordered by start key. *)
Fixpoint insert_range (m : RangeMetadata) (l : list RangeMetadata)
  : list RangeMetadata :=
  match l with
  | [] => [m]
  | x :: rest =>
      if engine.Less (StartKey (desc m)) (StartKey (desc x))
      then m :: l else x :: insert_range m rest
  end.

Definition meta_of (v : Value) : option RangeMetadata :=
  match v with VMeta m => Some m | _ => None end.

(** The range metadata found in the engine, ordered by start key. *)
Definition load_ranges (e : gmap string Value) : list RangeMetadata :=
  fold_right insert_range [] (omap (fun kv => meta_of (snd kv)) (map_to_list e)).

(** Modelled from the spec: [Init()] "reads back StoreIdent, reconstructs
    all resident Ranges by scanning metadata keys", and is a reported
    failure "if the engine has no persisted StoreIdent". *)
Definition Init (s : Store) : result Store :=
  match eng s !! KeyLocalIdent with
  | Some (VIdent i) =>
      Ok (mkStore (clock s) (eng s) (Some i) (load_ranges (eng s))
            (readTSCache s) (closed s))
  | _ => Err ErrNotBootstrapped
  end.

(** Modelled from the spec: [Bootstrap(ident)] "fails if the engine
    already contains any data" and otherwise persists the ident.  The
    spec also lets it create the first range; TestStoreInitAndBootstrap
    expects [GetRange(1)] to fail right after [Bootstrap] and creates the
    range itself, so no range is created here. *)
Definition Bootstrap (i : StoreIdent) (s : Store) : result Store :=
  if bool_decide (eng s = ∅)
  then Ok (mkStore (clock s) (<[KeyLocalIdent := VIdent i]> (eng s)) (Some i)
             (ranges s) (readTSCache s) (closed s))
  else Err ErrEngineNotEmpty.

(** Modelled from the spec: range ids are "monotonically increasing,
    unique per Store"; the first is 1. *)
Definition next_range_id (l : list RangeMetadata) : Z :=
  1 + fold_right (fun m acc => Z.max (metaRangeID m) acc) 0 l.

(** Modelled from the spec: [CreateRange(start, end, replicas)] allocates
    the id, builds the metadata, persists it under the key derived from
    the end key and inserts it in start-key order; only the validity of
    the descriptor, [start < end], is enforced. *)
Definition CreateRange (start end_ : Key) (replicas : list Replica) (s : Store)
  : result (RangeMetadata * Store) :=
  if engine.Less start end_ then
    let m := mkRangeMetadata
               (match ident s with Some i => ClusterID i | None => "" end)
               (next_range_id (ranges s))
               (mkRangeDescriptor start end_ replicas) in
    Ok (m, mkStore (clock s) (<[LookupKey (desc m) := VMeta m]> (eng s))
             (ident s) (insert_range m (ranges s)) (readTSCache s) (closed s))
  else Err ErrInvalidDescriptor.

(** Modelled from the spec: [GetRange(rangeID)] "fails with a not-found
    condition if no resident range has that id". *)
Definition GetRange (id : Z) (s : Store) : result RangeMetadata :=
  match find (fun m => metaRangeID m =? id) (ranges s) with
  | Some m => Ok m
  | None => Err (ErrRangeNotFound id)
  end.

(** Modelled from the spec: [Close()]; the "Store becomes unusable
    afterward". *)
Definition Close (s : Store) : Store :=
  mkStore (clock s) (eng s) (ident s) (ranges s) (readTSCache s) true.

(** Modelled from the spec: the arguments and the reply of a command,
    "args carries Replica, Key, EndKey (optional), Timestamp and reply
    carries at minimum Timestamp, payload". *)
Record CmdArgs : Type := mkArgs {
  argReplica : Replica;
  argKey : Key;
  argEndKey : Key;
  argTimestamp : Timestamp;
  argValue : string
}.

Record CmdReply : Type := mkReply {
  replyTimestamp : Timestamp;
  replyValue : option Value
}.

(** The commands: a read and a write.  The sources name "Get" only; the
    spec separates reads, which are recorded in the cache, from the
    rest. *)
Inductive Method : Type := Get | Put.

Definition is_read (m : Method) : bool :=
  match m with Get => true | Put => false end.

Section Dispatch.

Variable minCacheWindow : Z.

(** Modelled from the spec: [ExecuteCmd(method, args, reply)], steps 1 to
    6 of the dispatch path; [pt] is what the physical clock returns when
    the timestamp is resolved.  A panic of the bounds check is reported
    as [Panic]. *)
Definition ExecuteCmd (pt : Z) (method : Method) (args : CmdArgs) (s : Store)
  : result CmdReply * Store :=
  if closed s then (Err ErrClosed, s) else
  match GetRange (RangeID (argReplica args)) s with
  | Err e => (Err e, s)
  | Ok rng =>
      let '(ts, err, c') :=
        if Equal (argTimestamp args) (mkTimestamp 0 0)
        then let '(t, c) := Now pt (clock s) in (t, None, c)
        else Update pt (argTimestamp args) (clock s) in
      let s1 := mkStore c' (eng s) (ident s) (ranges s) (readTSCache s) (closed s) in
      match err with
      | Some e => (Err (ErrClock e), s1)
      | None =>
          match ContainsKeyRange (desc rng) (argKey args) (argEndKey args) with
          | Some true =>
              let '(payload, e') :=
                match method with
                | Get => (eng s !! argKey args, eng s)
                | Put => (None, <[argKey args := VBytes (argValue args)]> (eng s))
                end in
              let cache' :=
                if is_read method
                then Add minCacheWindow (argKey args) (argEndKey args) ts (readTSCache s)
                else readTSCache s in
              (Ok (mkReply ts payload),
               mkStore c' e' (ident s) (ranges s) cache' (closed s))
          | Some false => (Err ErrKeyOutOfRange, s1)
          | None => (Err Panic, s1)
          end
      end
  end.

End Dispatch.

(** [createTestStore] of the store tests: a fresh store on an empty
    engine with the single range from "a" to "z". *)
Definition createTestStore : Store :=
  match CreateRange "a" "z" [mkReplica 0 0 1 []] (NewStore NewClock ∅) with
  | Ok (_, s) => s
  | Err _ => NewStore NewClock ∅
  end.

(** [getArgs] of the store tests. *)
Definition getArgs (key : Key) (rangeID : Z) : CmdArgs :=
  mkArgs (mkReplica 0 0 rangeID []) key "" (mkTimestamp 0 0) "".

(** A proposed timestamp is within the drift bound when the drift check
    of [Update] does not reject it. *)
Definition within_drift (pt : Z) (ts : Timestamp) (c : Clock) : Prop :=
  maxDrift c <= 0 \/ Int64.sub (WallTime ts) pt <= maxDrift c.

(** The tests take [store.clock] and call it directly. *)
Definition set_clock (c : Clock) (s : Store) : Store :=
  mkStore c (eng s) (ident s) (ranges s) (readTSCache s) (closed s).

Definition is_ok {A : Type} (r : result A) : bool :=
  match r with Ok _ => true | Err _ => false end.

(** *** The tests of the store, run on the model *)

(** TestStoreInitAndBootstrap. *)
Example TestStoreInitAndBootstrap_model :
  let testIdent := mkStoreIdent "cluster" 1 1 in
  let store0 := NewStore NewClock ∅ in
  is_ok (Init store0) = false
  /\ exists store1 rng store2 store3,
       Bootstrap testIdent store0 = Ok store1
       /\ is_ok (GetRange 1 store1) = false
       /\ CreateRange KeyMin KeyMax [] store1 = Ok (rng, store2)
       /\ is_ok (GetRange 1 store2) = true
       /\ Init (NewStore (clock store2) (eng store2)) = Ok store3
       /\ is_ok (GetRange 1 store3) = true.
Proof.
  split; [reflexivity|].
  do 4 eexists.
  split; [vm_compute; reflexivity|].
  split; [reflexivity|].
  split; [vm_compute; reflexivity|].
  split; [reflexivity|].
  split; [vm_compute; reflexivity|].
  vm_compute. reflexivity.
Qed.

(** TestBootstrapOfNonEmptyStore. *)
Example TestBootstrapOfNonEmptyStore_model :
  let store0 := NewStore NewClock (<["foo" := VBytes "bar"]> ∅) in
  is_ok (Init store0) = false
  /\ is_ok (Bootstrap (mkStoreIdent "cluster" 1 1) store0) = false.
Proof. split; vm_compute; reflexivity. Qed.

(** TestStoreExecuteCmd and TestStoreExecuteCmdWithZeroTime. *)
Example TestStoreExecuteCmdWithZeroTime_model :
  let w := 10000000000 in
  is_ok (fst (ExecuteCmd w 0 Get (getArgs "a" 1) createTestStore)) = true
  /\ exists reply store1,
       ExecuteCmd w 1 Get (getArgs "a" 1) createTestStore = (Ok reply, store1)
       /\ WallTime (replyTimestamp reply) = WallTime (Timestamp_ (clock store1)).
Proof.
  split; [vm_compute; reflexivity|].
  do 2 eexists. split; [vm_compute; reflexivity|]. reflexivity.
Qed.

(** TestStoreExecuteCmdUpdateTime. *)
Example TestStoreExecuteCmdUpdateTime_model :
  let w := 10000000000 in
  let '(now, clock1) := Now 0 (clock createTestStore) in
  let proposed := mkTimestamp (Int64.add (WallTime now) 100000000) (Logical now) in
  let args := mkArgs (mkReplica 0 0 1 []) "a" "" proposed "" in
  let '(res, store1) := ExecuteCmd w 0 Get args (set_clock clock1 createTestStore) in
  let ts := Timestamp_ (clock store1) in
  is_ok res = true
  /\ WallTime ts = WallTime proposed
  /\ Logical proposed < Logical ts.
Proof. vm_compute. repeat split. Qed.

(** TestStoreExecuteCmdWithClockDrift. *)
Example TestStoreExecuteCmdWithClockDrift_model :
  let w := 10000000000 in
  let clock0 := SetMaxDrift 250000000 (clock createTestStore) in
  let '(now, clock1) := Now 1 clock0 in
  let proposed := mkTimestamp (Int64.add (WallTime now) (250000000 + 1)) (Logical now) in
  let args := mkArgs (mkReplica 0 0 1 []) "a" "" proposed "" in
  let '(res, store1) := ExecuteCmd w 1 Get args (set_clock clock1 createTestStore) in
  res = Err (ErrClock (DriftError 250000002 250000001))
  /\ clock store1 = clock1.
Proof. vm_compute. split; reflexivity. Qed.

(** TestStoreExecuteCmdBadRange and TestStoreExecuteCmdOutOfRange. *)
Example TestStoreExecuteCmdBadRange_model :
  let w := 10000000000 in
  fst (ExecuteCmd w 0 Get (getArgs "0" 2) createTestStore) = Err (ErrRangeNotFound 2)
  /\ fst (ExecuteCmd w 0 Get (getArgs "0" 1) createTestStore) = Err ErrKeyOutOfRange.
Proof. split; vm_compute; reflexivity. Qed.

(** *** Bootstrap and Init *)

Lemma RangeMetaKey_not_ident (k : Key) : RangeMetaKey k <> KeyLocalIdent.
Proof. unfold RangeMetaKey, KeyLocalIdent. cbn. discriminate. Qed.

Lemma load_ranges_ident_and_range (i : StoreIdent) (k : Key) (m : RangeMetadata) :
  load_ranges (<[RangeMetaKey k := VMeta m]> (<[KeyLocalIdent := VIdent i]> ∅))
  = [m].
Proof.
  unfold load_ranges.
  assert (Hperm : omap (fun kv : string * Value => meta_of (snd kv))
                    (map_to_list (<[RangeMetaKey k := VMeta m]>
                                    (<[KeyLocalIdent := VIdent i]> ∅)))
                  ≡ₚ [m]).
  { rewrite map_to_list_insert.
    - rewrite map_to_list_insert by apply lookup_empty.
      rewrite map_to_list_empty. reflexivity.
    - rewrite lookup_insert_ne by (intros E; symmetry in E;
                                   now apply RangeMetaKey_not_ident in E).
      apply lookup_empty. }
  apply Permutation_singleton_r in Hperm. rewrite Hperm. reflexivity.
Qed.

(** C5: [Init] fails on an engine that holds no store ident; [Bootstrap]
    fails on an engine that holds any data; after a successful
    [Bootstrap] a fresh store on the same engine is initialised by
    [Init], and the first range created gets id 1 and is fetched by
    [GetRange(1)], from the store that created it and from a fresh store
    after [Init]. *)
Theorem Init_Bootstrap_spec (s : Store) (i : StoreIdent) (c c' : Clock)
        (replicas : list Replica) :
  ((forall j, eng s !! KeyLocalIdent <> Some (VIdent j)) ->
   Init s = Err ErrNotBootstrapped)
  /\ (eng s <> ∅ -> Bootstrap i s = Err ErrEngineNotEmpty)
  /\ (exists s1 s1' rng s2 s3,
        Bootstrap i (NewStore c ∅) = Ok s1
        /\ Init (NewStore c' (eng s1)) = Ok s1'
        /\ CreateRange KeyMin KeyMax replicas s1 = Ok (rng, s2)
        /\ metaRangeID rng = 1
        /\ GetRange 1 s2 = Ok rng
        /\ Init (NewStore c' (eng s2)) = Ok s3
        /\ GetRange 1 s3 = Ok rng).
Proof.
  split; [|split].
  - intros Hno. unfold Init.
    destruct (eng s !! KeyLocalIdent) as [[j | m | b] |] eqn:E; try reflexivity.
    now destruct (Hno j).
  - intros Hne. unfold Bootstrap. now rewrite bool_decide_eq_false_2.
  - unfold Bootstrap, NewStore. cbn [eng].
    rewrite bool_decide_eq_true_2 by reflexivity.
    eexists. eexists. eexists. eexists. eexists.
    split; [reflexivity|]. cbn [eng clock ident ranges readTSCache closed].
    split; [unfold Init; cbn [eng]; rewrite lookup_insert_eq; reflexivity|].
    split; [reflexivity|].
    split; [reflexivity|].
    split; [reflexivity|].
    split.
    + unfold Init. cbn [eng LookupKey desc EndKey].
      rewrite lookup_insert_ne by apply RangeMetaKey_not_ident.
      rewrite lookup_insert_eq. reflexivity.
    + unfold GetRange. cbn [ranges].
      unfold LookupKey. cbn [desc EndKey].
      rewrite load_ranges_ident_and_range. reflexivity.
Qed.

Lemma Init_Bootstrap_spec_witness :
  Init (NewStore NewClock ∅) = Err ErrNotBootstrapped
  /\ Bootstrap (mkStoreIdent "cluster" 1 1)
       (NewStore NewClock (<["foo" := VBytes "bar"]> ∅))
     = Err ErrEngineNotEmpty.
Proof.
  pose proof (Init_Bootstrap_spec (NewStore NewClock ∅)
                (mkStoreIdent "cluster" 1 1) NewClock NewClock []) as [H1 _].
  pose proof (Init_Bootstrap_spec (NewStore NewClock (<["foo" := VBytes "bar"]> ∅))
                (mkStoreIdent "cluster" 1 1) NewClock NewClock []) as [_ [H2 _]].
  split.
  - apply H1. intros j. cbn [eng NewStore]. rewrite lookup_empty. discriminate.
  - apply H2. cbn [eng NewStore]. apply insert_non_empty.
Defined.

(** *** Timestamps of commands *)

Lemma Update_within_drift (pt : Z) (ts : Timestamp) (c : Clock) :
  within_drift pt ts c -> snd (fst (Update pt ts c)) = None.
Proof.
  intros Hd. unfold Update.
  destruct ((pt >? WallTime (state c)) && (pt >? WallTime ts)); [reflexivity|].
  destruct (WallTime ts >? WallTime (state c)).
  - destruct (Z.gtb_spec (maxDrift c) 0) as [Hpos | _]; [|reflexivity].
    destruct (Z.gtb_spec (Int64.sub (WallTime ts) pt) (maxDrift c)) as [Hgt | _];
      [|reflexivity].
    unfold within_drift in Hd. lia.
  - destruct (WallTime (state c) >? WallTime ts); reflexivity.
Qed.

(** C4, as stated, fails for a proposed timestamp that is behind the
    clock: on the test store with a maximal drift of 250ms, after a first
    read at physical time 10, a read proposing the timestamp (5, 0) is
    within the drift bound and succeeds, [Update] ticks the logical
    counter, and the wall time of the store clock stays at 10. *)
Lemma ExecuteCmd_stale_timestamp :
  let w := 10000000000 in
  let s0 := set_clock (SetMaxDrift 250000000 (clock createTestStore)) createTestStore in
  let s := snd (ExecuteCmd w 10 Get (getArgs "a" 1) s0) in
  let args := mkArgs (mkReplica 0 0 1 []) "a" "" (mkTimestamp 5 0) "" in
  let r := ExecuteCmd w 10 Get args s in
  clock s = mkClock (mkTimestamp 10 0) 250000000
  /\ Int64.sub (WallTime (argTimestamp args)) 10 <= maxDrift (clock s)
  /\ within_drift 10 (argTimestamp args) (clock s)
  /\ (exists reply, fst r = Ok reply)
  /\ clock (snd r) = snd (Update 10 (argTimestamp args) (clock s))
  /\ WallTime (Timestamp_ (clock (snd r))) = 10
  /\ WallTime (Timestamp_ (clock (snd r))) <> WallTime (argTimestamp args).
Proof.
  cbv zeta. split; [vm_compute; reflexivity|].
  split; [vm_compute; discriminate|].
  split; [right; vm_compute; discriminate|].
  split; [eexists; vm_compute; reflexivity|].
  split; [vm_compute; reflexivity|].
  split; [vm_compute; reflexivity|].
  vm_compute. discriminate.
Qed.

(** C4, amended: for a store that has not been closed and a command
    addressed to a resident range that holds its key.  With the zero
    timestamp the command is stamped by [Now], the reply carries that
    timestamp and its wall time is the wall time of the store clock.
    With a proposed timestamp within the drift bound the clock is merged
    by [Update]; the wall time of the clock is then the largest of the
    physical time, its former wall time and the proposed wall time, so it
    matches the proposed timestamp when that is behind neither of the
    other two. *)
Theorem ExecuteCmd_timestamp (minCacheWindow pt : Z) (method : Method)
        (args : CmdArgs) (s : Store) (rng : RangeMetadata) :
  closed s = false ->
  GetRange (RangeID (argReplica args)) s = Ok rng ->
  ContainsKeyRange (desc rng) (argKey args) (argEndKey args) = Some true ->
  (Equal (argTimestamp args) (mkTimestamp 0 0) = true ->
   exists reply,
     fst (ExecuteCmd minCacheWindow pt method args s) = Ok reply
     /\ replyTimestamp reply = fst (Now pt (clock s))
     /\ clock (snd (ExecuteCmd minCacheWindow pt method args s))
        = snd (Now pt (clock s))
     /\ WallTime (replyTimestamp reply)
        = WallTime (Timestamp_ (clock (snd (ExecuteCmd minCacheWindow pt method args s)))))
  /\ (Equal (argTimestamp args) (mkTimestamp 0 0) = false ->
      within_drift pt (argTimestamp args) (clock s) ->
      clock (snd (ExecuteCmd minCacheWindow pt method args s))
      = snd (Update pt (argTimestamp args) (clock s))
      /\ WallTime (Timestamp_ (clock (snd (ExecuteCmd minCacheWindow pt method args s))))
         = Z.max pt (Z.max (WallTime (state (clock s)))
                           (WallTime (argTimestamp args)))
      /\ (pt <= WallTime (argTimestamp args) ->
          WallTime (state (clock s)) <= WallTime (argTimestamp args) ->
          WallTime (Timestamp_ (clock (snd (ExecuteCmd minCacheWindow pt method args s))))
          = WallTime (argTimestamp args))).
Proof.
  intros Hopen Hrange Hkey. unfold ExecuteCmd. rewrite Hopen, Hrange.
  split.
  - intros Hzero. rewrite Hzero.
    pose proof (Now_result_is_state pt (clock s)) as Hres.
    destruct (Now pt (clock s)) as [t c1]. cbn [fst snd] in Hres.
    rewrite Hkey.
    exists (mkReply t (match method with Get => eng s !! argKey args | Put => None end)).
    destruct method; cbn; rewrite Hres; auto.
  - intros Hset Hdrift. rewrite Hset.
    pose proof (Update_within_drift _ _ _ Hdrift) as Hnone.
    pose proof (Update_wall pt (argTimestamp args) (clock s) Hnone) as Hwall.
    destruct (Update pt (argTimestamp args) (clock s)) as [[t err] c1].
    cbn [fst snd] in Hnone, Hwall. subst err. rewrite Hkey.
    destruct method; cbn; rewrite Hwall; repeat split; lia.
Qed.

Lemma ExecuteCmd_timestamp_witness :
  let w := 10000000000 in
  let s := set_clock (mkClock (mkTimestamp 0 1) 250000000) createTestStore in
  let args := mkArgs (mkReplica 0 0 1 []) "a" "" (mkTimestamp 100000000 1) "" in
  Int64.sub (WallTime (argTimestamp args)) 0 <= maxDrift (clock s)
  /\ clock (snd (ExecuteCmd w 0 Get args s))
     = mkClock (mkTimestamp 100000000 2) 250000000
  /\ WallTime (Timestamp_ (clock (snd (ExecuteCmd w 0 Get args s)))) = 100000000.
Proof.
  split; [vm_compute; discriminate|].
  destruct (ExecuteCmd_timestamp 10000000000 0 Get
              (mkArgs (mkReplica 0 0 1 []) "a" "" (mkTimestamp 100000000 1) "")
              (set_clock (mkClock (mkTimestamp 0 1) 250000000) createTestStore)
              (mkRangeMetadata "" 1 (mkRangeDescriptor "a" "z" [mkReplica 0 0 1 []])))
    as [_ H]; [reflexivity | reflexivity | reflexivity |].
  destruct H as [H1 [_ H3]].
  - reflexivity.
  - right. vm_compute. discriminate.
  - split.
    + rewrite H1. reflexivity.
    + apply H3; cbn; lia.
Defined.

End store.

(** ** More on the hybrid logical clock *)

Module hlc_props.
Import hlc.

(** Both fields of a timestamp are int64 values. *)
Definition ts_in_range (t : Timestamp) : Prop :=
  Int64.in_range (WallTime t) /\ Int64.in_range (Logical t).

(** The clock after a run of [Now] calls, [pts] being what the physical
    clock returns at each call. *)
Definition NowRun (pts : list Z) (c : Clock) : Clock :=
  fold_left (fun c' pt => snd (Now pt c')) pts c.

(** Of two timestamps exactly one is the case: the first is [Less], they
    are [Equal], or the second is [Less]. *)
Theorem Less_Equal_trichotomy (t s : Timestamp) :
  (Less t s = true /\ Equal t s = false /\ Less s t = false)
  \/ (Less t s = false /\ Equal t s = true /\ Less s t = false)
  \/ (Less t s = false /\ Equal t s = false /\ Less s t = true).
Proof.
  unfold Less, Equal.
  destruct (Z.lt_total (WallTime t) (WallTime s)) as [H | [H | H]];
    destruct (Z.lt_total (Logical t) (Logical s)) as [H' | [H' | H']];
    [left | left | left | left | right; left | right; right
     | right; right | right; right | right; right]; lia.
Qed.

(** [Less] is transitive. *)
Theorem Less_transitive (t s u : Timestamp) :
  Less t s = true -> Less s u = true -> Less t u = true.
Proof. rewrite !Less_spec. lia. Qed.

Lemma Less_transitive_witness :
  Less (mkTimestamp 1 9) (mkTimestamp 2 0) = true
  /\ Less (mkTimestamp 2 0) (mkTimestamp 2 1) = true
  /\ Less (mkTimestamp 1 9) (mkTimestamp 2 1) = true.
Proof.
  split; [reflexivity|]. split; [reflexivity|].
  apply (Less_transitive (mkTimestamp 1 9) (mkTimestamp 2 0) (mkTimestamp 2 1));
    reflexivity.
Defined.

(** No int64 timestamp is above [MaxTimestamp]; the timestamps below
    [MinTimestamp] are those with a negative wall time, or wall time 0
    and a negative logical part. *)
Theorem Max_Min_Timestamp_bounds (t : Timestamp) :
  ts_in_range t ->
  Less MaxTimestamp t = false
  /\ (Less t MinTimestamp = true
      <-> WallTime t < 0 \/ (WallTime t = 0 /\ Logical t < 0)).
Proof.
  intros [[_ Hw] [_ Hl]]. split.
  - unfold Less, MaxTimestamp. cbn [WallTime Logical]. lia.
  - rewrite Less_spec. reflexivity.
Qed.

Lemma Max_Min_Timestamp_bounds_witness :
  Less MaxTimestamp (mkTimestamp 7 3) = false
  /\ Less (mkTimestamp (-1) 5) MinTimestamp = true.
Proof.
  split.
  - apply (Max_Min_Timestamp_bounds (mkTimestamp 7 3)).
    split; cbn; unfold Int64.in_range, Int64.min_int, Int64.max_int; lia.
  - apply (Max_Min_Timestamp_bounds (mkTimestamp (-1) 5)).
    + split; cbn; unfold Int64.in_range, Int64.min_int, Int64.max_int; lia.
    + left. cbn. lia.
Defined.

(** Neither [Now] nor [Update], failing or not, moves the wall time of
    the clock backwards. *)
Theorem wall_time_never_decreases (pt : Z) (rt : Timestamp) (c : Clock) :
  WallTime (state c) <= WallTime (state (snd (Now pt c)))
  /\ WallTime (state c) <= WallTime (state (snd (Update pt rt c))).
Proof.
  split.
  - unfold Now. cbn [snd].
    destruct (Z.geb_spec (WallTime (state c)) pt); cbn; lia.
  - destruct (snd (fst (Update pt rt c))) as [e |] eqn:E.
    + revert E. unfold Update.
      repeat match goal with
             | |- context [if ?b then _ else _] => destruct b
             end; cbn; try discriminate; lia.
    + rewrite (Update_wall pt rt c E). lia.
Qed.

(** [Update] fails exactly when drift checking is on, the remote wall
    time is ahead of the stored one and not behind the physical time,
    and the int64 difference to the physical time is above [maxDrift]. *)
Theorem Update_error_iff (pt : Z) (rt : Timestamp) (c : Clock) :
  (exists e, snd (fst (Update pt rt c)) = Some e)
  <-> (maxDrift c > 0
       /\ WallTime rt > WallTime (state c)
       /\ pt <= WallTime rt
       /\ Int64.sub (WallTime rt) pt > maxDrift c).
Proof.
  unfold Update.
  destruct (Z.gtb_spec pt (WallTime (state c))) as [H1 | H1];
    destruct (Z.gtb_spec pt (WallTime rt)) as [H2 | H2]; cbn [andb];
    destruct (Z.gtb_spec (WallTime rt) (WallTime (state c))) as [H3 | H3];
    destruct (Z.gtb_spec (maxDrift c) 0) as [H4 | H4];
    destruct (Z.gtb_spec (Int64.sub (WallTime rt) pt) (maxDrift c)) as [H5 | H5];
    cbn [andb];
    try destruct (Z.gtb_spec (WallTime (state c)) (WallTime rt)) as [H6 | H6];
    cbn [fst snd];
    (split; [intros [e E]; try discriminate; lia
            | intros Hc; try lia; eexists; reflexivity]).
Qed.

(** An [Update] that fails leaves the clock as it was, returns the stored
    state, and reports the remote wall time and how far ahead it is. *)
Theorem Update_error_keeps_clock (pt : Z) (rt : Timestamp) (c : Clock) (e : error) :
  snd (fst (Update pt rt c)) = Some e ->
  snd (Update pt rt c) = c
  /\ fst (fst (Update pt rt c)) = state c
  /\ e = DriftError (WallTime rt) (Int64.sub (WallTime rt) pt).
Proof.
  unfold Update.
  repeat match goal with
         | |- context [if ?b then _ else _] => destruct b
         end; cbn [fst snd]; try discriminate.
  intros E. injection E as <-. rewrite timestamp_state. auto.
Qed.

Lemma Update_error_keeps_clock_witness :
  let c := mkClock (mkTimestamp 1 4) 250000000 in
  snd (Update 1 (mkTimestamp 900000000 0) c) = c.
Proof.
  apply (Update_error_keeps_clock 1 (mkTimestamp 900000000 0)
           (mkClock (mkTimestamp 1 4) 250000000)
           (DriftError 900000000 899999999)).
  reflexivity.
Defined.

(** After [SetMaxDrift(0)] an [Update] accepts every remote timestamp. *)
Theorem Update_without_drift_check (pt : Z) (rt : Timestamp) (c : Clock) :
  snd (fst (Update pt rt (SetMaxDrift 0 c))) = None.
Proof.
  unfold Update, SetMaxDrift. cbn [maxDrift state].
  change (0 >? 0) with false. cbn [andb].
  repeat match goal with
         | |- context [if ?b then _ else _] => destruct b
         end; reflexivity.
Qed.

(** A remote timestamp ahead of the stored wall time, not behind the
    physical time and at most [maxDrift] ahead of it, the bound included,
    is adopted: the clock takes its wall time and its logical part plus
    one. *)
Theorem Update_adopts_remote (pt : Z) (rt : Timestamp) (c : Clock) :
  WallTime rt > WallTime (state c) ->
  pt <= WallTime rt ->
  WallTime rt - pt <= maxDrift c ->
  maxDrift c <= Int64.max_int ->
  Update pt rt c
  = (mkTimestamp (WallTime rt) (Int64.add (Logical rt) 1), None,
     mkClock (mkTimestamp (WallTime rt) (Int64.add (Logical rt) 1)) (maxDrift c)).
Proof.
  intros Hrt Hpt Hd Hmax. unfold Update.
  assert (Hsub : Int64.sub (WallTime rt) pt = WallTime rt - pt).
  { apply Int64.sub_small.
    unfold Int64.in_range, Int64.min_int, Int64.max_int in *. lia. }
  rewrite Hsub.
  destruct (Z.gtb_spec pt (WallTime rt)) as [Hn | _]; [lia|].
  rewrite andb_false_r.
  destruct (Z.gtb_spec (WallTime rt) (WallTime (state c))) as [_ | Hn]; [|lia].
  destruct (Z.gtb_spec (WallTime rt - pt) (maxDrift c)) as [Hn | _]; [lia|].
  rewrite andb_false_r. reflexivity.
Qed.

Lemma Update_adopts_remote_witness :
  Update 1 (mkTimestamp 250000001 7) (mkClock (mkTimestamp 1 0) 250000000)
  = (mkTimestamp 250000001 8, None,
     mkClock (mkTimestamp 250000001 8) 250000000).
Proof.
  apply (Update_adopts_remote 1 (mkTimestamp 250000001 7)
           (mkClock (mkTimestamp 1 0) 250000000));
    cbn; unfold Int64.max_int; lia.
Defined.

(** While the physical clock advances from call to call, starting above
    the stored wall time, [Now] returns the physical time with logical
    part 0. *)
Theorem NowSeq_follows_physical_clock (pts : list Z) : forall c : Clock,
  Sorted Z.lt (WallTime (state c) :: pts) ->
  NowSeq pts c = map (fun pt => mkTimestamp pt 0) pts.
Proof.
  induction pts as [| pt rest IH]; intros c Hs; [reflexivity|].
  apply Sorted_inv in Hs as [Hs Hhd]. apply HdRel_inv in Hhd.
  cbn [NowSeq map]. unfold Now.
  destruct (Z.geb_spec (WallTime (state c)) pt) as [Hn | _]; [lia|].
  cbn. f_equal. apply IH. exact Hs.
Qed.

Lemma NowSeq_follows_physical_clock_witness :
  NowSeq [3; 5; 9] (mkClock (mkTimestamp 2 6) 0)
  = [mkTimestamp 3 0; mkTimestamp 5 0; mkTimestamp 9 0].
Proof.
  apply (NowSeq_follows_physical_clock [3; 5; 9] (mkClock (mkTimestamp 2 6) 0)).
  repeat constructor; cbn; lia.
Defined.

Lemma NowSeq_head_wall (pts : list Z) (c : Clock) :
  HdRel Z.le (WallTime (state c)) (map WallTime (NowSeq pts c)).
Proof.
  destruct pts as [| pt rest]; cbn [NowSeq map]; [constructor|].
  destruct (Now pt c) as [t c'] eqn:E. cbn [map]. constructor.
  change t with (fst (t, c')). rewrite <- E. unfold Now. cbn [fst].
  destruct (Z.geb_spec (WallTime (state c)) pt); cbn; lia.
Qed.

(** Whatever the physical clock does, the wall time of each timestamp
    [Now] returns is not behind the physical time read at that call, and
    the wall times returned never go down. *)
Theorem NowSeq_not_behind_physical_clock (pts : list Z) : forall c : Clock,
  Forall2 (fun pt t => pt <= WallTime t) pts (NowSeq pts c)
  /\ Sorted Z.le (map WallTime (NowSeq pts c)).
Proof.
  induction pts as [| pt rest IH]; intros c; cbn [NowSeq map];
    [split; constructor|].
  pose proof (Now_result_is_state pt c) as Hst.
  pose proof (NowSeq_head_wall rest (snd (Now pt c))) as Hhd.
  assert (Hpt : pt <= WallTime (fst (Now pt c))).
  { unfold Now. cbn [fst].
    destruct (Z.geb_spec (WallTime (state c)) pt); cbn; lia. }
  destruct (Now pt c) as [t c'] eqn:E. cbn [fst snd map] in *.
  destruct (IH c') as [IH1 IH2].
  split; constructor; trivial. rewrite Hst. exact Hhd.
Qed.

(** While the physical clock does not pass the stored wall time, each
    [Now] keeps the wall time and advances the logical part by one: it
    counts the events, as long as the counter stays within int64. *)
Theorem Now_counts_events (pts : list Z) : forall c : Clock,
  Forall (fun pt => pt <= WallTime (state c)) pts ->
  Int64.min_int <= Logical (state c) ->
  Logical (state c) + Z.of_nat (length pts) <= Int64.max_int ->
  state (NowRun pts c)
  = mkTimestamp (WallTime (state c)) (Logical (state c) + Z.of_nat (length pts)).
Proof.
  unfold Int64.min_int, Int64.max_int.
  induction pts as [| pt rest IH]; intros c Hpts Hlo Hhi.
  - cbn. destruct (state c). cbn. f_equal. lia.
  - apply Forall_cons_1 in Hpts as [Hpt Hrest]. cbn [length] in Hhi.
    change (NowRun (pt :: rest) c) with (NowRun rest (snd (Now pt c))).
    assert (Hstep : state (snd (Now pt c))
                    = mkTimestamp (WallTime (state c)) (Logical (state c) + 1)).
    { unfold Now. cbn [snd].
      destruct (Z.geb_spec (WallTime (state c)) pt) as [_ | Hn]; [|lia].
      cbn. rewrite Int64.succ_small
        by (unfold Int64.min_int, Int64.max_int; lia).
      reflexivity. }
    rewrite IH; rewrite Hstep; cbn [WallTime Logical length].
    + f_equal. lia.
    + exact Hrest.
    + lia.
    + lia.
Qed.

Lemma Now_counts_events_witness :
  state (NowRun [4; 2; 9] (mkClock (mkTimestamp 9 0) 0)) = mkTimestamp 9 3.
Proof.
  apply (Now_counts_events [4; 2; 9] (mkClock (mkTimestamp 9 0) 0)).
  - repeat constructor; cbn; lia.
  - cbn. unfold Int64.min_int. lia.
  - cbn. unfold Int64.max_int. lia.
Defined.

End hlc_props.

(** ** More on storage/config.go *)

Module config_props.
Import engine config.

(** *** The order on keys *)

Lemma key_lt_irrefl (k : Key) : ~ key_lt k k.
Proof.
  intros H. apply Less_key_lt in H. rewrite key_Less_irrefl in H. discriminate.
Qed.

Lemma key_lt_trans (k l m : Key) : key_lt k l -> key_lt l m -> key_lt k m.
Proof.
  intros H. revert m.
  induction H as [b l | a b k l Hab | a k l Hkl IH]; intros m Hm;
    inversion Hm; subst.
  - constructor.
  - constructor.
  - apply key_lt_head. lia.
  - now apply key_lt_head.
  - now apply key_lt_head.
  - apply key_lt_tail. now apply IH.
Qed.

Lemma key_le_lt_trans (k l m : Key) : key_le k l -> key_lt l m -> key_lt k m.
Proof. intros [H | ->] Hm; [now apply (key_lt_trans k l m) | exact Hm]. Qed.

Lemma key_lt_le_trans (k l m : Key) : key_lt k l -> key_le l m -> key_lt k m.
Proof. intros H [Hm | <-]; [now apply (key_lt_trans k l m) | exact H]. Qed.

Lemma key_le_trans (k l m : Key) : key_le k l -> key_le l m -> key_le k m.
Proof.
  intros H [Hm | <-]; [left; now apply (key_le_lt_trans k l m) | exact H].
Qed.

Lemma key_le_lt_absurd (k l : Key) : key_le k l -> key_lt l k -> False.
Proof. intros H1 H2. apply (key_lt_irrefl k). now apply (key_le_lt_trans k l k). Qed.

Lemma key_le_total (k l : Key) : key_le k l \/ key_lt l k.
Proof.
  destruct (Less l k) eqn:E.
  - right. now apply Less_key_lt.
  - left. now apply not_Less_key_le.
Qed.

Lemma ContainsKey_true_iff (r : RangeDescriptor) (k : Key) :
  ContainsKey r k = true <-> key_le (StartKey r) k /\ key_lt k (EndKey r).
Proof.
  unfold ContainsKey.
  rewrite andb_true_iff, negb_true_iff, not_Less_key_le, Less_key_lt.
  reflexivity.
Qed.

(** What [ContainsKeyRange] returns when it does not panic, in terms of
    the end key it works with. *)
Lemma ContainsKeyRange_true_iff (r : RangeDescriptor) (s e : Key) :
  ContainsKeyRange r s e = Some true
  <-> key_le s (if (String.length e =? 0)%nat then s else e)
      /\ key_le (StartKey r) s
      /\ key_le (if (String.length e =? 0)%nat then s else e) (EndKey r).
Proof.
  unfold ContainsKeyRange.
  set (e' := if (String.length e =? 0)%nat then s else e).
  destruct (Less e' s) eqn:E.
  - split; [discriminate|]. intros [H _].
    apply not_Less_key_le in H. congruence.
  - apply not_Less_key_le in E. split.
    + intros H. injection H as H. apply andb_true_iff in H as [H1 H2].
      rewrite negb_true_iff, not_Less_key_le in H1, H2. auto.
    + intros [_ [H1 H2]]. f_equal. apply andb_true_iff.
      rewrite !negb_true_iff, !not_Less_key_le. auto.
Qed.

(** *** Containment *)

(** [ContainsKeyRange] panics exactly when the end key is not empty and
    is below the start key; the descriptor plays no part in it. *)
Theorem ContainsKeyRange_panics_iff (r : RangeDescriptor) (s e : Key) :
  ContainsKeyRange r s e = None <-> e <> EmptyString /\ key_lt e s.
Proof.
  unfold ContainsKeyRange. destruct e as [| b e]; cbn [String.length Nat.eqb].
  - rewrite key_Less_irrefl. split; [discriminate | intros [H _]; congruence].
  - destruct (Less (String b e) s) eqn:E.
    + split; [intros _ | reflexivity].
      split; [discriminate | now apply Less_key_lt].
    + split; [discriminate|]. intros [_ H].
      apply Less_key_lt in H. congruence.
Qed.

(** A descriptor that contains a key range contains every key of it. *)
Theorem ContainsKeyRange_ContainsKey (r : RangeDescriptor) (s e k : Key) :
  ContainsKeyRange r s e = Some true ->
  key_le s k -> key_lt k e ->
  ContainsKey r k = true.
Proof.
  intros H Hsk Hke. apply ContainsKeyRange_true_iff in H as [_ [H1 H2]].
  destruct e as [| b e]; [inversion Hke|]. cbn [String.length Nat.eqb] in H2.
  apply ContainsKey_true_iff. split.
  - now apply (key_le_trans _ s).
  - now apply (key_lt_le_trans _ (String b e)).
Qed.

Lemma ContainsKeyRange_ContainsKey_witness :
  ContainsKey (mkRangeDescriptor "a"%string "z"%string []) "mm"%string = true.
Proof.
  apply (ContainsKeyRange_ContainsKey
           (mkRangeDescriptor "a"%string "z"%string [])
           "m"%string "n"%string "mm"%string).
  - reflexivity.
  - left. apply Less_key_lt. reflexivity.
  - apply Less_key_lt. reflexivity.
Defined.

(** With an empty end key, [ContainsKeyRange] accepts the keys that
    [ContainsKey] accepts and, on a descriptor whose start key is not
    above its end key, the end key itself; it accepts nothing else. *)
Theorem ContainsKeyRange_single_key_iff (r : RangeDescriptor) (k : Key) :
  ContainsKeyRange r k EmptyString = Some true
  <-> ContainsKey r k = true
      \/ (k = EndKey r /\ key_le (StartKey r) (EndKey r)).
Proof.
  rewrite ContainsKeyRange_true_iff, ContainsKey_true_iff.
  cbn [String.length Nat.eqb]. split.
  - intros [_ [H1 [H2 | ->]]]; [left | right]; auto.
  - intros [[H1 H2] | [-> H]].
    + split; [now right|]. split; [exact H1 | now left].
    + split; [now right|]. split; [exact H | now right].
Qed.

(** A descriptor whose end key is not above its start key contains no
    key. *)
Theorem ContainsKey_empty_descriptor (r : RangeDescriptor) (k : Key) :
  key_le (EndKey r) (StartKey r) -> ContainsKey r k = false.
Proof.
  intros H. destruct (ContainsKey r k) eqn:E; [|reflexivity].
  apply ContainsKey_true_iff in E as [H1 H2]. exfalso.
  apply (key_le_lt_absurd (EndKey r) k); [|exact H2].
  now apply (key_le_trans _ (StartKey r)).
Qed.

Lemma ContainsKey_empty_descriptor_witness :
  ContainsKey (mkRangeDescriptor "m"%string "m"%string []) "m"%string = false.
Proof.
  apply (ContainsKey_empty_descriptor
           (mkRangeDescriptor "m"%string "m"%string []) "m"%string).
  right. reflexivity.
Defined.

(** Containment of key ranges is downward closed: a descriptor that
    contains the range from [s] to [e] contains every range from [s'] to
    a non-empty [e'] that lies within it, and every single key from [s]
    to [e]. *)
Theorem ContainsKeyRange_subrange (r : RangeDescriptor) (s e s' e' : Key) :
  ContainsKeyRange r s e = Some true ->
  e <> EmptyString ->
  key_le s s' -> key_le s' e' -> key_le e' e ->
  (e' <> EmptyString -> ContainsKeyRange r s' e' = Some true)
  /\ ContainsKeyRange r s' EmptyString = Some true.
Proof.
  intros H He Hs Hse He'.
  apply ContainsKeyRange_true_iff in H as [_ [H1 H2]].
  destruct e as [| b e]; [congruence|]. cbn [String.length Nat.eqb] in H2.
  split.
  - intros Hne. apply ContainsKeyRange_true_iff.
    destruct e' as [| b' e']; [congruence|]. cbn [String.length Nat.eqb].
    split; [exact Hse|]. split.
    + now apply (key_le_trans _ s).
    + now apply (key_le_trans _ (String b e)).
  - apply ContainsKeyRange_true_iff. cbn [String.length Nat.eqb].
    split; [now right|]. split.
    + now apply (key_le_trans _ s).
    + apply (key_le_trans _ e'); [exact Hse|].
      now apply (key_le_trans _ (String b e)).
Qed.

Lemma ContainsKeyRange_subrange_witness :
  let az := mkRangeDescriptor "a"%string "z"%string [] in
  ContainsKeyRange az "c"%string "d"%string = Some true
  /\ ContainsKeyRange az "c"%string EmptyString = Some true.
Proof.
  destruct (ContainsKeyRange_subrange
              (mkRangeDescriptor "a"%string "z"%string [])
              "b"%string "y"%string "c"%string "d"%string) as [H1 H2].
  - reflexivity.
  - discriminate.
  - left. apply Less_key_lt. reflexivity.
  - left. apply Less_key_lt. reflexivity.
  - left. apply Less_key_lt. reflexivity.
  - split; [apply H1; discriminate | exact H2].
Defined.

(** Two descriptors that meet at a key split the keys of the descriptor
    spanning both: a key is in the whole exactly when it is in one of the
    parts, and it is never in both.  The end key of the first part
    belongs to the second. *)
Theorem adjacent_descriptors_partition (a b c k : Key) (ra rb rc : list Replica) :
  key_le a b -> key_le b c ->
  ContainsKey (mkRangeDescriptor a c rc) k
  = ContainsKey (mkRangeDescriptor a b ra) k
    || ContainsKey (mkRangeDescriptor b c rb) k
  /\ ContainsKey (mkRangeDescriptor a b ra) k
     && ContainsKey (mkRangeDescriptor b c rb) k = false.
Proof.
  intros Hab Hbc. split.
  - apply eq_true_iff_eq.
    rewrite orb_true_iff, !ContainsKey_true_iff. cbn [StartKey EndKey]. split.
    + intros [H1 H2]. destruct (key_le_total b k) as [Hbk | Hkb]; auto.
    + intros [[H1 H2] | [H1 H2]]; split; trivial.
      * now apply (key_lt_le_trans _ b).
      * now apply (key_le_trans _ b).
  - apply andb_false_iff.
    destruct (ContainsKey (mkRangeDescriptor a b ra) k) eqn:E1; [|now left].
    right. destruct (ContainsKey (mkRangeDescriptor b c rb) k) eqn:E2; [|reflexivity].
    apply ContainsKey_true_iff in E1 as [_ E1], E2 as [E2 _].
    cbn [StartKey EndKey] in *. exfalso. now apply (key_le_lt_absurd b k).
Qed.

Lemma adjacent_descriptors_partition_witness :
  ContainsKey (mkRangeDescriptor "a"%string "m"%string []) "m"%string = false
  /\ ContainsKey (mkRangeDescriptor "m"%string "z"%string []) "m"%string = true
  /\ ContainsKey (mkRangeDescriptor "a"%string "z"%string []) "m"%string
     = ContainsKey (mkRangeDescriptor "a"%string "m"%string []) "m"%string
       || ContainsKey (mkRangeDescriptor "m"%string "z"%string []) "m"%string.
Proof.
  split; [reflexivity|]. split; [reflexivity|].
  apply (adjacent_descriptors_partition "a"%string "m"%string "z"%string
           "m"%string [] [] []);
    left; apply Less_key_lt; reflexivity.
Defined.

End config_props.

(** ** storage/config.go: permissions and the choice of a replica *)

Module config_acl.
Import config.

(** [type PermConfig struct]: the users with read and with write
    permission. *)
Record PermConfig : Type := mkPermConfig {
  Read : list string;
  Write : list string
}.

(** The loop of [CanRead] and of [CanWrite]: walk the list and return
    true at the first entry equal to [user]. *)
Fixpoint search_acl (acl : list string) (user : string) : bool :=
  match acl with
  | [] => false
  | u :: rest => if String.eqb u user then true else search_acl rest user
  end.

(** [func (p *PermConfig) CanRead(user string) bool] *)
Definition CanRead (p : PermConfig) (user : string) : bool :=
  search_acl (Read p) user.

(** [func (p *PermConfig) CanWrite(user string) bool] *)
Definition CanWrite (p : PermConfig) (user : string) : bool :=
  search_acl (Write p) user.

(** What [ChooseRandomReplica] returns: nil, a pointer to one of the
    replicas, or the panic of an index outside the slice. *)
Inductive choice : Type :=
| NoReplica
| Chosen (r : Replica)
| IndexOutOfRange.

(** [func ChooseRandomReplica(replicas []Replica) *Replica].  [Intn]
    stands for [util.CachedRand.Intn], which is not among the sources. *)
Definition ChooseRandomReplica (Intn : nat -> nat) (replicas : list Replica)
  : choice :=
  if (length replicas =? 0)%nat then NoReplica
  else match nth_error replicas (Intn (length replicas)) with
       | Some r => Chosen r
       | None => IndexOutOfRange
       end.

Lemma search_acl_In (acl : list string) (user : string) :
  search_acl acl user = true <-> In user acl.
Proof.
  induction acl as [| u rest IH]; cbn [search_acl In]; [easy|].
  destruct (String.eqb_spec u user) as [-> | Hne].
  - split; [now left | reflexivity].
  - rewrite IH. split; [now right | intros [E | H]; [congruence | exact H]].
Qed.

(** A user can read exactly when listed in the read ACL, and can write
    exactly when listed in the write ACL; neither list grants the other
    permission. *)
Theorem CanRead_CanWrite_iff (p : PermConfig) (user : string) :
  (CanRead p user = true <-> In user (Read p))
  /\ (CanWrite p user = true <-> In user (Write p)).
Proof. split; apply search_acl_In. Qed.

(** [ChooseRandomReplica] returns nil exactly for the empty slice; with a
    generator that keeps [Intn(n)] below [n], it otherwise returns one of
    the replicas, the one at the drawn index. *)
Theorem ChooseRandomReplica_spec (Intn : nat -> nat) (replicas : list Replica) :
  (forall n, (0 < n)%nat -> (Intn n < n)%nat) ->
  (ChooseRandomReplica Intn replicas = NoReplica <-> replicas = [])
  /\ (replicas <> [] ->
      exists r, ChooseRandomReplica Intn replicas = Chosen r
                /\ In r replicas
                /\ nth_error replicas (Intn (length replicas)) = Some r).
Proof.
  intros Hrand. unfold ChooseRandomReplica.
  destruct replicas as [| r0 rest].
  - split; [split; reflexivity | congruence].
  - cbn [length Nat.eqb].
    assert (Hlt : (Intn (S (length rest)) < length (r0 :: rest))%nat)
      by (cbn [length]; apply Hrand; lia).
    destruct (nth_error (r0 :: rest) (Intn (S (length rest)))) as [r |] eqn:E.
    + split; [split; discriminate|]. intros _. exists r.
      split; [reflexivity|]. split; [|reflexivity].
      eapply nth_error_In. exact E.
    + apply nth_error_None in E. lia.
Qed.

Lemma ChooseRandomReplica_spec_witness :
  let rs := [mkReplica 1 1 1 []; mkReplica 2 1 1 []; mkReplica 3 1 1 []] in
  exists r, ChooseRandomReplica (fun n => Nat.pred n) rs = Chosen r /\ In r rs.
Proof.
  destruct (ChooseRandomReplica_spec (fun n => Nat.pred n)
              [mkReplica 1 1 1 []; mkReplica 2 1 1 []; mkReplica 3 1 1 []])
    as [_ H].
  - intros n Hn. destruct n; [lia | cbn; lia].
  - destruct H as [r [H1 [H2 _]]]; [discriminate|].
    exists r. split; assumption.
Defined.

End config_acl.
